(** * PlanItinerary: itinerary store, budget calculator and the validation
      of LLM suggestions

    A shallow embedding of [itinerary.ts] (class [PlanItinerary] and the
    validators below it) and the properties of its specification.

    Conventions of the model.
    - A JavaScript [number] is a double.  The validators, the requester
      and the store compare amounts and pass them on: there an amount is an
      integer [Z], counted in whole units, [NaN], infinities and fractions
      are left out, and the properties of the calculator compare its
      results or say that they do not change.  What number the calculator
      returns is stated on binary64 numbers, with the rounding, the
      infinities and the [NaN] of IEEE 754 (module [Binary64]).
    - A JavaScript string is a [string]: a sequence of 8-bit code units read
      as the first 256 Unicode code points (Latin-1).
    - A value that comes out of [JSON.parse] is a [JSValue]: the objects the
      language model sends are not checked against [interface Suggestion].
    - Code that can throw lives in the [Completion] monad ([Normal] or
      [Throw]); [try { .. } catch] is [try_catch], over what a [catch]
      clause can receive ([Caught]).
    - Objects that are mutated through references ([Event], [Itinerary]) or
      compared by identity ([Trip]) live in a [Store]; the read-only
      functions take the object graph by value.
    - Console output is not modelled; the conversions to text that printing
      asks for are, where they can throw.
    - The built-ins of the language that the program calls and that the
      properties do not depend on ([JSON.parse], the comparison of a value
      that is not a number, the text of an object) are the fields of a
      [Runtime]; every property holds for every runtime. *)

From Stdlib Require Import ZArith Ascii String Bool Lia DecimalString Floats.
From stdpp Require Import base option list strings relations.

Local Open Scope Z_scope.
#[local] Set Warnings "-register-all".

(** ** Strings *)

Module Str.

Definition code (c : ascii) : N := N_of_ascii c.

Definition in_range (lo hi : N) (c : ascii) : bool :=
  ((lo <=? code c) && (code c <=? hi))%N.

Definition is_upper (c : ascii) : bool := in_range 65 90 c.
Definition is_lower (c : ascii) : bool := in_range 97 122 c.
Definition is_digit (c : ascii) : bool := in_range 48 57 c.

(** Letters of Latin-1 that have a lower-case form 32 code points above:
    [A-Z], and [U+00C0 .. U+00DE] without the multiplication sign. *)
Definition has_lower_form (c : ascii) : bool :=
  is_upper c || (in_range 192 222 c && negb (code c =? 215)%N).

Definition lower_char (c : ascii) : ascii :=
  if has_lower_form c then ascii_of_N (code c + 32) else c.

(** [String.prototype.toLowerCase] *)
Fixpoint toLowerCase (s : string) : string :=
  match s with
  | EmptyString => EmptyString
  | String c s' => String (lower_char c) (toLowerCase s')
  end.

(** The class [\s] of a regular expression, which is also what [trim]
    removes: tab, line feed, vertical tab, form feed, carriage return,
    space and the no-break space. *)
Definition is_space (c : ascii) : bool :=
  in_range 9 13 c || (code c =? 32)%N || (code c =? 160)%N.

(** The class [[a-z0-9\s]]. *)
Definition kept (c : ascii) : bool := is_lower c || is_digit c || is_space c.

(** [text.replace(/[^a-z0-9\s]/g, "")] *)
Fixpoint strip (s : string) : string :=
  match s with
  | EmptyString => EmptyString
  | String c s' => if kept c then String c (strip s') else strip s'
  end.

Fixpoint trimStart (s : string) : string :=
  match s with
  | EmptyString => EmptyString
  | String c s' => if is_space c then trimStart s' else s
  end.

Fixpoint trimEnd (s : string) : string :=
  match s with
  | EmptyString => EmptyString
  | String c s' =>
      match trimEnd s' with
      | EmptyString => if is_space c then EmptyString else String c EmptyString
      | r => String c r
      end
  end.

(** [String.prototype.trim] *)
Definition trim (s : string) : string := trimEnd (trimStart s).

(** [String.prototype.includes]: [sub] occurs in [s] at some position. *)
Fixpoint includes (s sub : string) : bool :=
  String.prefix sub s ||
  match s with
  | EmptyString => false
  | String _ s' => includes s' sub
  end.

(** A string is truthy when it is not empty. *)
Definition nonempty (s : string) : bool :=
  match s with EmptyString => false | String _ _ => true end.

(** [s || d] on strings. *)
Definition or_else (s d : string) : string := if nonempty s then s else d.

Fixpoint all_chars (p : ascii -> bool) (s : string) : bool :=
  match s with
  | EmptyString => true
  | String c s' => p c && all_chars p s'
  end.

(** An ASCII letter or digit. *)
Definition alnum (c : ascii) : bool := is_upper c || is_lower c || is_digit c.

End Str.

(** ** Values, exceptions and the built-ins the program calls *)

(** What [JSON.parse] can return, and [undefined] for a missing property. *)
Inductive JSValue : Type :=
  | JUndefined
  | JNull
  | JBool (b : bool)
  | JNum (n : Z)
  | JStr (s : string)
  | JArr (elems : list JSValue)
  | JObj (props : list (string * JSValue)).

(** What is thrown: [new Error(message)] of the program, and the
    [TypeError] and [SyntaxError] objects of the runtime. *)
Inductive Exception : Type :=
  | Error (message : string)
  | TypeError
  | SyntaxError.

Inductive Completion (A : Type) : Type :=
  | Normal (a : A)
  | Throw (e : Exception).
Arguments Normal {A} a.
Arguments Throw {A} e.

Definition bind {A B} (m : Completion A) (k : A -> Completion B) : Completion B :=
  match m with
  | Normal a => k a
  | Throw e => Throw e
  end.

Notation "'do' x <- m ; k" := (bind m (fun x => k))
  (at level 10, x name, m at level 100, k at level 200).

(** What a [catch] clause can receive.  The program and the runtime throw
    error objects; a promise can be rejected with any value at all: with an
    error object, as a call that fails does, or with a value that is none,
    [undefined] and [null] included. *)
Inductive Caught : Type :=
  | ErrorObject (e : Exception)
  | Value (v : JSValue).

(** How a [try] block ends: with the value it returns, or with what its
    [catch] clause receives. *)
Inductive Attempt (A : Type) : Type :=
  | Done (a : A)
  | Failed (error : Caught).
Arguments Done {A} a.
Arguments Failed {A} error.

(** Statements inside a [try] block: what they throw goes to the [catch]
    clause. *)
Definition inside_try {A} (m : Completion A) : Attempt A :=
  match m with
  | Normal a => Done a
  | Throw e => Failed (ErrorObject e)
  end.

(** [try { body } catch (error) { handler(error) }]: what the handler
    throws is thrown by the whole statement. *)
Definition try_catch {A} (body : Attempt A) (handler : Caught -> Completion A)
  : Completion A :=
  match body with
  | Done a => Normal a
  | Failed error => handler error
  end.

(** The built-ins whose definition is the language's and not the program's. *)
Class Runtime : Type := {
  (** [JSON.parse(text)]: the value, or a [SyntaxError]. *)
  JSON_parse : string -> Completion JSValue;
  (** [JSON.stringify(text)] of a string. *)
  JSON_stringify : string -> string;
  (** [v <= n] for a [v] that is not a number: the conversion of [v] to a
      primitive and to a number, which can throw, then the comparison. *)
  le_coerced : JSValue -> Z -> Completion bool;
  (** The text of an object or an array inside a template literal, or the
      [TypeError] of an object that does not convert to a primitive. *)
  ToString_object : JSValue -> Completion string
}.

(** [ToBoolean] *)
Definition truthy (v : JSValue) : bool :=
  match v with
  | JUndefined | JNull => false
  | JBool b => b
  | JNum n => negb (n =? 0)
  | JStr s => Str.nonempty s
  | JArr _ | JObj _ => true
  end.

Fixpoint lookup_prop (props : list (string * JSValue)) (key : string) : JSValue :=
  match props with
  | [] => JUndefined
  | (k, v) :: rest => if String.eqb k key then v else lookup_prop rest key
  end.

(** [v.key] for the keys this program reads ([name], [cost], [location],
    [message]): a [TypeError] on [null] and [undefined], the property of an
    object, and [undefined] on every other value (no primitive wrapper and
    no array has one of these properties). *)
Definition get (v : JSValue) (key : string) : Completion JSValue :=
  match v with
  | JUndefined | JNull => Throw TypeError
  | JObj props => Normal (lookup_prop props key)
  | _ => Normal JUndefined
  end.

(** [v.toLowerCase()]: only a string has the method. *)
Definition call_toLowerCase (v : JSValue) : Completion string :=
  match v with
  | JStr s => Normal (Str.toLowerCase s)
  | _ => Throw TypeError
  end.

(** [v || d] *)
Definition js_or (v d : JSValue) : JSValue := if truthy v then v else d.

(** [v <= n] with [n] a number. *)
Definition js_le `{rt : Runtime} (v : JSValue) (n : Z) : Completion bool :=
  match v with
  | JNum m => Normal (m <=? n)
  | _ => le_coerced v n
  end.

(** The text of [v] inside a template literal. *)
Definition template_text `{rt : Runtime} (v : JSValue) : Completion string :=
  match v with
  | JUndefined => Normal "undefined"
  | JNull => Normal "null"
  | JBool b => Normal (if b then "true" else "false")
  | JNum n => Normal (NilZero.string_of_int (Z.to_int n))
  | JStr s => Normal s
  | JArr _ | JObj _ => ToString_object v
  end.

(** [Array.prototype.some] with a callback that can throw: the callback runs
    on the elements in order until one answers [true]. *)
Fixpoint Array_some {A} (f : A -> Completion bool) (l : list A) : Completion bool :=
  match l with
  | [] => Normal false
  | x :: rest => do b <- f x; if b then Normal true else Array_some f rest
  end.

(** ** Data model *)

Record Trip : Type := {
  destination : string;
  startDate : string;
  endDate : string;
  groupSize : Z
}.

Record Event : Type := {
  name : string;
  cost : Z;
  start : string;
  end_ : string;
  location : string;
  pending : bool;
  approved : bool
}.

(** [interface Itinerary], over what a [Trip] and an [Event] are at the
    place of use: the objects themselves for the read-only functions, their
    references in the store. *)
Record Itinerary_ (T E : Type) : Type := {
  trip : T;
  events : list E;
  finalized : bool;
  budget : Z
}.
Arguments trip {T E} _.
Arguments events {T E} _.
Arguments finalized {T E} _.
Arguments budget {T E} _.

Definition Itinerary : Type := Itinerary_ Trip Event.

(** ** Budget calculator *)

Definition getRemainingBudget (itinerary : Itinerary) : Z :=
  let spent :=
    fold_left (fun sum e => sum + cost e)
              (List.filter (fun e => approved e) (events itinerary)) 0 in
  budget itinerary - spent.

(** The same interfaces and the same calculator with [budget] and [cost] as
    the binary64 numbers they are at run time: [+] and [-] are the addition
    and the subtraction of doubles, rounded to nearest. *)
Module Binary64.

Record Trip : Type := {
  destination : string;
  startDate : string;
  endDate : string;
  groupSize : float
}.

Record Event : Type := {
  name : string;
  cost : float;
  start : string;
  end_ : string;
  location : string;
  pending : bool;
  approved : bool
}.

Record Itinerary : Type := {
  trip : Trip;
  events : list Event;
  finalized : bool;
  budget : float
}.

Definition getRemainingBudget (itinerary : Itinerary) : float :=
  let spent :=
    fold_left (fun sum e => (sum + cost e)%float)
              (List.filter (fun e => approved e) (events itinerary)) 0%float in
  (budget itinerary - spent)%float.

End Binary64.

(** ** Validators *)

(** The local [normalize] of [validateDestination]. *)
Definition normalize (text : string) : string :=
  Str.trim (Str.strip (Str.toLowerCase text)).

(** [normalize(v)] on a value that is not known to be a string:
    [text.toLowerCase] is not a function unless it is one. *)
Definition normalize_value (v : JSValue) : Completion string :=
  do lowered <- call_toLowerCase v; Normal (Str.trim (Str.strip lowered)).

Definition validateDestination
    (suggestion : JSValue) (destination : string) (events : list Event)
  : Completion bool :=
  do loc <- get suggestion "location";
  if negb (truthy loc) then Normal false else
  let normalizedDest := normalize destination in
  do loc' <- get suggestion "location";
  do suggestionText <- normalize_value (js_or loc' (JStr ""));
  let matchesDestination := Str.includes suggestionText normalizedDest in
  let itineraryLocations :=
    List.filter (fun loc => (0 <? String.length loc)%nat)
                (map (fun e => normalize (Str.or_else (location e) "")) events) in
  let matchesExistingLocation :=
    existsb (fun loc => Str.includes suggestionText loc) itineraryLocations in
  Normal (matchesDestination || matchesExistingLocation).

Definition validateBudget `{rt : Runtime} (suggestion : JSValue) (budget : Z)
  : Completion bool :=
  do c <- get suggestion "cost";
  js_le (js_or c (JNum 0)) budget.

Definition isDuplicate (events : list Event) (suggestion : JSValue)
  : Completion bool :=
  Array_some
    (fun e =>
       let lhs := Str.toLowerCase (name e) in
       do n <- get suggestion "name";
       do rhs <- call_toLowerCase n;
       Normal (String.eqb lhs rhs))
    events.

(** The body of the loop of [validateAllSuggestions] up to [issues.length]:
    the three checks in order, each adding its message to [issues]. *)
Definition collect_issues `{rt : Runtime}
    (suggestion : JSValue) (events : list Event) (destination : string) (budget : Z)
  : Completion (list string) :=
  let issues : list string := [] in
  do okDest <- validateDestination suggestion destination events;
  let issues := if negb okDest then issues ++ ["Destination mismatch"] else issues in
  do okBudget <- validateBudget suggestion budget;
  let issues := if negb okBudget then issues ++ ["Exceeds remaining budget"] else issues in
  do dup <- isDuplicate events suggestion;
  let issues := if dup then issues ++ ["Duplicate of existing event"] else issues in
  Normal issues.

(** [for (const suggestion of suggestions) { .. }], with [validSuggestions]
    as the accumulator that [push] extends.  Both branches print a line
    with the name of the suggestion in a template literal: the line is not
    modelled, the conversion of the name to text, which can throw, is. *)
Fixpoint validate_loop `{rt : Runtime}
    (suggestions : list JSValue) (events : list Event) (destination : string)
    (budget : Z) (validSuggestions : list JSValue) : Completion (list JSValue) :=
  match suggestions with
  | [] => Normal validSuggestions
  | suggestion :: rest =>
      do issues <- collect_issues suggestion events destination budget;
      if (0 <? length issues)%nat
      then
        do n <- get suggestion "name";
        do shown <- template_text n;
        validate_loop rest events destination budget validSuggestions
      else
        do n <- get suggestion "name";
        do shown <- template_text n;
        validate_loop rest events destination budget (validSuggestions ++ [suggestion])
  end.

Definition validateAllSuggestions `{rt : Runtime}
    (suggestions : list JSValue) (events : list Event) (destination : string)
    (budget : Z) : Completion (list JSValue) :=
  validate_loop suggestions events destination budget [].

(** ** Suggestion requester *)

(** The outcome of [await llm.executeLLM(prompt)].  The promise resolves
    with the text of the reply, as its type says ([Resolved]), or with a
    value that is no string, from a gateway that breaks its type
    ([ResolvedWith]); or it is rejected, with whatever the gateway threw
    ([Rejected]).  The values are those of [JSValue]: plain data, without
    methods or accessors of their own.  The prompt is built from the
    itinerary before the [try] block, by string interpolation that does not
    throw on an itinerary of its type; it reaches the program only through
    this outcome. *)
Inductive LLMOutcome : Type :=
  | Resolved (text : string)
  | Rejected (reason : Caught)
  | ResolvedWith (v : JSValue).

Definition await (llm : LLMOutcome) : Attempt JSValue :=
  match llm with
  | Resolved text => Done (JStr text)
  | Rejected reason => Failed reason
  | ResolvedWith v => Done v
  end.

(** The greedy [[\s\S]*\]] at a position: the star takes the rest of the
    text and gives characters back until a closing bracket follows, so the
    match is [s] up to its last closing bracket, that bracket included. *)
Fixpoint upto_last_close (s : string) : option string :=
  match s with
  | EmptyString => None
  | String c s' =>
      match upto_last_close s' with
      | Some r => Some (String c r)
      | None => if Ascii.eqb c "]" then Some (String c EmptyString) else None
      end
  end.

(** [text.match(/\[[\s\S]*\]/)]: the search tries the positions of the
    text from the left; at a position it needs an opening bracket, then
    the greedy match above.  The result is [jsonMatch[0]], the text of the
    leftmost match, or [None] for [null]. *)
Fixpoint jsonMatch (text : string) : option string :=
  match text with
  | EmptyString => None
  | String c rest =>
      match (if Ascii.eqb c "[" then upto_last_close rest else None) with
      | Some body => Some (String c body)
      | None => jsonMatch rest
      end
  end.

(** The statements of the [try] block after the [await], on the value
    [text] the promise resolved with.  [text.match] is a method of strings:
    the call throws a [TypeError] on every other value. *)
Definition request_body `{rt : Runtime}
    (itinerary : Itinerary) (destination : string) (remainingBudget : Z)
    (text : JSValue) : Completion (list JSValue) :=
  match text with
  | JStr text =>
      match jsonMatch text with
      | None => Throw (Error (JSON_stringify text))
      | Some span =>
          do suggestions <- JSON_parse span;
          match suggestions with
          | JArr elems =>
              do validated <-
                validateAllSuggestions elems (events itinerary) destination
                                       remainingBudget;
              if negb (truthy (JArr validated))
              then Throw (Error "No valid suggestions after validation.")
              else Normal validated
          | _ => Throw (Error "Invalid suggestions format.")
          end
      end
  | _ => Throw TypeError
  end.

(** The [try] block of [requestSuggestionFromLLM]. *)
Definition request_attempt `{rt : Runtime}
    (itinerary : Itinerary) (destination : string) (remainingBudget : Z)
    (llm : LLMOutcome) : Attempt (list JSValue) :=
  match await llm with
  | Done text => inside_try (request_body itinerary destination remainingBudget text)
  | Failed reason => Failed reason
  end.

(** [(error as Error).message] in the [catch] block: the cast is erased at
    run time and the read is a property read on whatever was caught.  An
    error object has the property; on any other value the read is [get],
    which throws on [null] and [undefined].  The text read is printed and
    is not modelled. *)
Definition read_message (error : Caught) : Completion unit :=
  match error with
  | ErrorObject _ => Normal tt
  | Value v => do message <- get v "message"; Normal tt
  end.

(** [catch (error)] reads [error.message], prints it and returns the empty
    array. *)
Definition requestSuggestionFromLLM `{rt : Runtime}
    (itinerary : Itinerary) (llm : LLMOutcome) : Completion (list JSValue) :=
  let destination := destination (trip itinerary) in
  let remainingBudget := getRemainingBudget itinerary in
  try_catch (request_attempt itinerary destination remainingBudget llm)
            (fun error => do printed <- read_message error; Normal []).

(** ** The store: object identity and mutation *)

(** A reference to an object is its address in the heap of its kind.  An
    address in range stands for an object that exists; JavaScript has no
    other references. *)
Abbreviation ref := nat (only parsing).

(** [trip_heap] holds the [Trip] objects the callers made, [event_heap] the
    [Event] objects.  [itineraries] is the private array of the class:
    [create] is the only place that makes an [Itinerary] and it pushes it
    there, nothing is ever removed, so the position of an itinerary in the
    array serves as its address. *)
Record Store : Type := {
  trip_heap : list Trip;
  event_heap : list Event;
  itineraries : list (Itinerary_ ref ref)
}.

Definition empty_store : Store :=
  {| trip_heap := []; event_heap := []; itineraries := [] |}.

(** A caller writes a [Trip] object literal. *)
Definition new_trip (σ : Store) (t : Trip) : ref * Store :=
  (length (trip_heap σ),
   {| trip_heap := trip_heap σ ++ [t];
      event_heap := event_heap σ;
      itineraries := itineraries σ |}).

Definition create (σ : Store) (trip' : ref) (budget' : Z) : Completion (ref * Store) :=
  let existing := List.find (fun i => Nat.eqb (trip i) trip') (itineraries σ) in
  match existing with
  | Some _ => Throw (Error "An itinerary for this trip already exists.")
  | None =>
      let itinerary :=
        {| trip := trip'; events := []; finalized := false; budget := budget' |} in
      Normal (length (itineraries σ),
              {| trip_heap := trip_heap σ;
                 event_heap := event_heap σ;
                 itineraries := itineraries σ ++ [itinerary] |})
  end.

Definition push_event (e : ref) (i : Itinerary_ ref ref) : Itinerary_ ref ref :=
  {| trip := trip i; events := events i ++ [e];
     finalized := finalized i; budget := budget i |}.

Definition addEvent (σ : Store) (name' : string) (cost' : Z) (location' : string)
    (itinerary : ref) (start' end' : string) : ref * Store :=
  let event :=
    {| name := name'; cost := cost'; location := location';
       start := start'; end_ := end';
       pending := true; approved := false |} in
  let e := length (event_heap σ) in
  (e,
   {| trip_heap := trip_heap σ;
      event_heap := event_heap σ ++ [event];
      itineraries := alter (push_event e) itinerary (itineraries σ) |}).

Definition with_event_heap (σ : Store) (h : list Event) : Store :=
  {| trip_heap := trip_heap σ; event_heap := h; itineraries := itineraries σ |}.

Definition updateEvent (σ : Store) (event : ref) (name' : string) (cost' : Z)
    (start' end' : string) : Store :=
  with_event_heap σ
    (alter (fun ev =>
              {| name := name'; cost := cost'; start := start'; end_ := end';
                 location := location ev;
                 pending := pending ev; approved := approved ev |})
           event (event_heap σ)).

Definition setEventApproval (σ : Store) (event : ref) (approved' : bool) : Store :=
  with_event_heap σ
    (alter (fun ev =>
              {| name := name ev; cost := cost ev; start := start ev; end_ := end_ ev;
                 location := location ev;
                 pending := false; approved := approved' |})
           event (event_heap σ)).

Definition finalizeItinerary (σ : Store) (itinerary : ref) (finalized' : bool) : Store :=
  {| trip_heap := trip_heap σ;
     event_heap := event_heap σ;
     itineraries :=
       alter (fun i => {| trip := trip i; events := events i;
                          finalized := finalized'; budget := budget i |})
             itinerary (itineraries σ) |}.

(** One call of an operation, on references to objects that exist. *)
Inductive step : Store -> Store -> Prop :=
  | step_new_trip σ t :
      step σ (new_trip σ t).2
  | step_create σ trip' budget' r σ' :
      (trip' < length (trip_heap σ))%nat ->
      create σ trip' budget' = Normal (r, σ') ->
      step σ σ'
  | step_addEvent σ name' cost' location' itinerary start' end' :
      (itinerary < length (itineraries σ))%nat ->
      step σ (addEvent σ name' cost' location' itinerary start' end').2
  | step_updateEvent σ event name' cost' start' end' :
      (event < length (event_heap σ))%nat ->
      step σ (updateEvent σ event name' cost' start' end')
  | step_setEventApproval σ event approved' :
      (event < length (event_heap σ))%nat ->
      step σ (setEventApproval σ event approved')
  | step_finalizeItinerary σ itinerary finalized' :
      (itinerary < length (itineraries σ))%nat ->
      step σ (finalizeItinerary σ itinerary finalized').

(** The stores a program can be in: any number of calls from a new
    [PlanItinerary]. *)
Definition reachable (σ : Store) : Prop := rtc step empty_store σ.

(** The object graph under an itinerary, by value. *)
Definition deref (σ : Store) (i : Itinerary_ ref ref) : option Itinerary :=
  t ← trip_heap σ !! trip i;
  es ← mapM (fun e => event_heap σ !! e) (events i);
  Some {| trip := t; events := es; finalized := finalized i; budget := budget i |}.

(** * Vocabulary of the properties

    What the statements below talk about: the conditions of the
    specification as it words them, the same conditions as the code decides
    them, and the data of the examples. *)

(** ** Substrings *)

(** [sub] occurs in [s]. *)
Definition occurs_in (sub s : string) : Prop :=
  exists pre post, s = pre +:+ sub +:+ post.

(** [c] does not occur in [s]. *)
Definition no_char (c : ascii) (s : string) : bool :=
  Str.all_chars (fun x => negb (Ascii.eqb x c)) s.

(** ** Budget *)

(** The sum of the costs of the events with [approved = true]: the costs
    are added to [sum] one after the other in the order of the list, each
    addition rounded as the additions of doubles are. *)
Fixpoint approved_total (sum : float) (events : list Binary64.Event) : float :=
  match events with
  | [] => sum
  | e :: rest =>
      approved_total
        (if Binary64.approved e then (sum + Binary64.cost e)%float else sum) rest
  end.

(** The itinerary with other events. *)
Definition with_events (i : Binary64.Itinerary) (es : list Binary64.Event)
  : Binary64.Itinerary :=
  {| Binary64.trip := Binary64.trip i; Binary64.events := es;
     Binary64.finalized := Binary64.finalized i;
     Binary64.budget := Binary64.budget i |}.

(** An event with a name, a cost and its two flags, and an itinerary for
    Rome with a budget and events. *)
Definition event_costing (name : string) (cost : float) (pending approved : bool)
  : Binary64.Event :=
  {| Binary64.name := name; Binary64.cost := cost;
     Binary64.start := "2025-06-03T10:00:00Z";
     Binary64.end_ := "2025-06-03T12:00:00Z";
     Binary64.location := "Rome, Italy";
     Binary64.pending := pending; Binary64.approved := approved |}.

Definition rome_with (budget : float) (events : list Binary64.Event)
  : Binary64.Itinerary :=
  {| Binary64.trip :=
       {| Binary64.destination := "Rome, Italy";
          Binary64.startDate := "2025-06-01";
          Binary64.endDate := "2025-06-07";
          Binary64.groupSize := 4%float |};
     Binary64.events := events; Binary64.finalized := false;
     Binary64.budget := budget |}.

(** ** Destination check *)

(** The decision of [validateDestination] on a location that is a string. *)
Definition location_matches (loc destination : string) (events : list Event) : bool :=
  Str.nonempty loc &&
  (Str.includes (normalize loc) (normalize destination) ||
   existsb (fun e => Str.nonempty (normalize (location e)) &&
                     Str.includes (normalize loc) (normalize (location e)))
           events).

(** The same as a statement about substrings: the location is not empty,
    and its normal form contains the normal form of the destination, or the
    normal form, not empty, of the location of an event of the itinerary. *)
Definition location_justified (loc destination : string) (events : list Event) : Prop :=
  loc <> EmptyString /\
  (occurs_in (normalize destination) (normalize loc) \/
   exists e, In e events /\
             normalize (location e) <> EmptyString /\
             occurs_in (normalize (location e)) (normalize loc)).

(** The destination check as the specification words it, with no condition
    on empty strings. *)
Definition destination_check_as_specified
    (loc destination : string) (events : list Event) : Prop :=
  occurs_in (normalize destination) (normalize loc) \/
  exists e, In e events /\ occurs_in (normalize (location e)) (normalize loc).

(** The location of the suggestion is a string justified by the destination
    or by an event of the list. *)
Definition suggestion_justified
    (destination : string) (events : list Event) (s : JSValue) : Prop :=
  exists loc, get s "location" = Normal (JStr loc) /\
              location_justified loc destination events.

(** The justification as claim C6 words it: by the destination or by the
    location of an approved event. *)
Definition justified_by_approved
    (destination : string) (events : list Event) (s : JSValue) : Prop :=
  exists loc, get s "location" = Normal (JStr loc) /\
    (occurs_in (normalize destination) (normalize loc) \/
     exists e, In e events /\ approved e = true /\
               occurs_in (normalize (location e)) (normalize loc)).

(** ** The checks on a candidate *)

(** A candidate that fits [interface Suggestion] as far as the validators
    read it: an object whose [name] is a string, whose [location] is a
    string or is missing, and whose [cost] is a number or is missing. *)
Definition is_Suggestion (v : JSValue) : bool :=
  match v with
  | JObj props =>
      match lookup_prop props "name", lookup_prop props "location",
            lookup_prop props "cost" with
      | JStr _, (JStr _ | JUndefined | JNull), (JNum _ | JUndefined | JNull) => true
      | _, _, _ => false
      end
  | _ => false
  end.

(** The name, the empty string when it is missing. *)
Definition name_of (v : JSValue) : string :=
  match v with
  | JObj props => match lookup_prop props "name" with JStr n => n | _ => EmptyString end
  | _ => EmptyString
  end.

(** The location, the empty string when it is missing. *)
Definition location_of (v : JSValue) : string :=
  match v with
  | JObj props => match lookup_prop props "location" with JStr l => l | _ => EmptyString end
  | _ => EmptyString
  end.

(** The cost, 0 when it is missing. *)
Definition cost_of (v : JSValue) : Z :=
  match v with
  | JObj props => match lookup_prop props "cost" with JNum c => c | _ => 0 end
  | _ => 0
  end.

(** Some event has the name of the candidate, up to case. *)
Definition name_taken (s : JSValue) (events : list Event) : bool :=
  existsb (fun e => String.eqb (Str.toLowerCase (name e)) (Str.toLowerCase (name_of s)))
          events.

(** The three checks of the specification on a candidate: the destination
    match, the cost within the budget, the name not taken. *)
Definition passes_all_checks
    (s : JSValue) (events : list Event) (destination : string) (budget : Z) : bool :=
  location_matches (location_of s) destination events
  && (cost_of s <=? budget)
  && negb (name_taken s events).

(** ** The span of the reply *)

(** What follows the first opening bracket of [s]. *)
Fixpoint after_first_open (s : string) : option string :=
  match s with
  | EmptyString => None
  | String c s' => if Ascii.eqb c "[" then Some s' else after_first_open s'
  end.

(** The span as the specification words it: the first balanced top-level
    array.  From the first opening bracket, the scan counts the brackets
    that open and close and stops at the closing bracket that matches the
    first one.  [balanced_upto depth s] is [s] up to the closing bracket
    that closes [depth] brackets opened in [s] and one opened before it. *)
Fixpoint balanced_upto (depth : nat) (s : string) : option string :=
  match s with
  | EmptyString => None
  | String c s' =>
      if Ascii.eqb c "]" then
        match depth with
        | O => Some (String c EmptyString)
        | S d => option_map (String c) (balanced_upto d s')
        end
      else if Ascii.eqb c "[" then option_map (String c) (balanced_upto (S depth) s')
      else option_map (String c) (balanced_upto depth s')
  end.

Definition first_balanced_span (text : string) : option string :=
  match after_first_open text with
  | None => None
  | Some rest => option_map (String "[") (balanced_upto 0 rest)
  end.

(** ** The outcome of the gateway call *)

(** The gateway promise is rejected with [undefined] or with [null]. *)
Definition nullish_rejection (llm : LLMOutcome) : Prop :=
  llm = Rejected (Value JUndefined) \/ llm = Rejected (Value JNull).

(** ** The store *)

(** The error [create] throws; the specification calls it the duplicate
    trip error. *)
Definition DuplicateTripError : Exception :=
  Error "An itinerary for this trip already exists.".

(** Some itinerary of the store holds the reference [trip']. *)
Definition registered (σ : Store) (trip' : ref) : Prop :=
  exists i, In i (itineraries σ) /\ trip i = trip'.

(** The itinerary [create] makes. *)
Definition new_itinerary (trip' : ref) (budget' : Z) : Itinerary_ ref ref :=
  {| trip := trip'; events := []; finalized := false; budget := budget' |}.

(** No event of the store is approved and still pending. *)
Definition decided_or_pending (σ : Store) : Prop :=
  forall e ev, event_heap σ !! e = Some ev ->
               ~ (approved ev = true /\ pending ev = true).

(** ** Example data *)

(** An object with the five fields of [interface Suggestion]. *)
Definition suggestion_object
    (name : string) (cost : Z) (category location : string) (durationHours : Z)
  : JSValue :=
  JObj [("name", JStr name); ("cost", JNum cost); ("category", JStr category);
        ("location", JStr location); ("durationHours", JNum durationHours)].

(** What [addEvent] makes, by value. *)
Definition pending_event (name : string) (cost : Z) (location : string) : Event :=
  {| name := name; cost := cost; location := location;
     start := "2025-06-03T10:00:00Z"; end_ := "2025-06-03T12:00:00Z";
     pending := true; approved := false |}.

(** The same after [setEventApproval(event, true)]. *)
Definition approved_event (name : string) (cost : Z) (location : string) : Event :=
  {| name := name; cost := cost; location := location;
     start := "2025-06-03T10:00:00Z"; end_ := "2025-06-03T12:00:00Z";
     pending := false; approved := true |}.

Definition trip_to (destination : string) : Trip :=
  {| destination := destination; startDate := "2025-06-01";
     endDate := "2025-06-14"; groupSize := 4 |}.

Definition itinerary_of (destination : string) (events : list Event) (budget : Z)
  : Itinerary :=
  {| trip := trip_to destination; events := events;
     finalized := false; budget := budget |}.

(** A runtime for the examples: [JSON.parse] is given as a table; the
    comparison of a cost that is not a number and the text of a name that
    is an object, which no example reaches, throw. *)
Definition runtime_with (parse : string -> Completion JSValue) : Runtime :=
  {| JSON_parse := parse;
     JSON_stringify := fun text => text;
     le_coerced := fun _ _ => Throw TypeError;
     ToString_object := fun _ => Throw TypeError |}.

(** A runtime whose [JSON.parse] answers the given value. *)
Definition runtime_parsing (v : JSValue) : Runtime :=
  runtime_with (fun _ => Normal v).

(** A runtime whose [JSON.parse] answers the given value on one text and
    rejects every other text. *)
Definition runtime_parsing_only (text : string) (v : JSValue) : Runtime :=
  runtime_with (fun s => if String.eqb s text then Normal v else Throw SyntaxError).

(** The examples of the specification in one list: with 50 left and an event
    named "Colosseum Tour", a cost of 75 is rejected and a cost of 50 is
    accepted, a suggestion named "colosseum tour" is rejected, one in
    Paris is rejected, and one without a cost is accepted. *)
Definition five_candidates : list JSValue :=
  [suggestion_object "Vatican Museums" 75 "Museum" "Rome, Italy" 3;
   suggestion_object "Trevi Fountain" 50 "Sightseeing" "Rome, Italy" 1;
   suggestion_object "colosseum tour" 10 "Sightseeing" "Rome, Italy" 2;
   suggestion_object "Louvre Museum" 20 "Museum" "Paris, France" 3;
   JObj [("name", JStr "Pantheon"); ("location", JStr "Rome, Italy")]].

(** An itinerary for "Spring Break" whose only event is pending, in Paris. *)
Definition spring_break : Itinerary :=
  itinerary_of "Spring Break" [pending_event "Eiffel Tower" 30 "Paris, France"] 1200.

Definition louvre : JSValue :=
  suggestion_object "Louvre Museum" 20 "Museum" "Paris, France" 3.

Definition colosseum : Event := approved_event "Colosseum Tour" 150 "Rome, Italy".

(** The itinerary of the second test of the suite. *)
Definition rome : Itinerary := itinerary_of "Rome, Italy" [colosseum] 2500.

Definition trevi : JSValue :=
  suggestion_object "Trevi Fountain" 0 "Sightseeing" "Rome, Italy" 1.

(** A candidate with a location and a cost and no name. *)
Definition nameless : JSValue :=
  JObj [("cost", JNum 10); ("location", JStr "Rome, Italy")].

(** A candidate with a name and a cost and no location. *)
Definition placeless : JSValue :=
  JObj [("name", JStr "Somewhere"); ("cost", JNum 10)].

(** ** Events and itineraries in the store *)

(** The event after [updateEvent]. *)
Definition edited (ev : Event) (name' : string) (cost' : Z) (start' end' : string)
  : Event :=
  {| name := name'; cost := cost'; start := start'; end_ := end';
     location := location ev; pending := pending ev; approved := approved ev |}.

(** The event after [setEventApproval]. *)
Definition decided (ev : Event) (approved' : bool) : Event :=
  {| name := name ev; cost := cost ev; start := start ev; end_ := end_ ev;
     location := location ev; pending := false; approved := approved' |}.

(** The costs that count against the budget: those of the approved events,
    in the order of the list. *)
Definition counted_costs (es : list Event) : list Z :=
  map cost (List.filter (fun e => approved e) es).

(** Two states of an event that count the same against the budget: the
    same approval and, when approved, the same cost. *)
Definition counts_alike (ev ev' : Event) : Prop :=
  approved ev' = approved ev /\ (approved ev = true -> cost ev' = cost ev).

(** The event references of all itineraries, in the order of the store. *)
Definition all_event_refs (σ : Store) : list ref :=
  mjoin (events <$> itineraries σ).

(** The references of the store lead somewhere, no two itineraries hold the
    same trip, and every event of the heap is in the list of exactly one
    itinerary, once. *)
Definition well_formed (σ : Store) : Prop :=
  Forall (fun i => (trip i < length (trip_heap σ))%nat) (itineraries σ)
  /\ NoDup (trip <$> itineraries σ)
  /\ NoDup (all_event_refs σ)
  /\ (forall e, e ∈ all_event_refs σ <-> (e < length (event_heap σ))%nat).

(** [getRemainingBudget] of the itinerary behind a reference. *)
Definition remaining (σ : Store) (itinerary : ref) : option Z :=
  getRemainingBudget <$> (itineraries σ !! itinerary ≫= deref σ).

(** The store of the second test of the suite before the approval: one
    trip, its itinerary with a budget of 2500, one pending event. *)
Definition rome_store : Store :=
  (addEvent
     {| trip_heap := [trip_to "Rome, Italy"]; event_heap := [];
        itineraries := [new_itinerary 0%nat 2500] |}
     "Colosseum Tour" 150 "Rome, Italy" 0%nat
     "2025-06-03T10:00:00Z" "2025-06-03T12:00:00Z").2.

(** ** Normal forms *)

(** [s] does not start with white space. *)
Definition head_not_space (s : string) : bool :=
  match s with
  | EmptyString => true
  | String c _ => negb (Str.is_space c)
  end.

(** ** What a returned candidate has passed *)

(** The three checks answered for the candidate without throwing: the
    destination matches, the budget fits, no event has its name. *)
Definition passed_checks `{rt : Runtime}
    (events : list Event) (destination : string) (budget : Z) (s : JSValue) : Prop :=
  validateDestination s destination events = Normal true /\
  validateBudget s budget = Normal true /\
  isDuplicate events s = Normal false.

(** A value of the list the validators can read when the itinerary has no
    event: an object whose [location] is a string or is missing, whose
    [cost] is a number or is missing, and whose [name] is anything but an
    object or an array, or is missing. *)
Definition readable_without_name (v : JSValue) : bool :=
  match v with
  | JObj props =>
      match lookup_prop props "name", lookup_prop props "location",
            lookup_prop props "cost" with
      | (JUndefined | JNull | JBool _ | JNum _ | JStr _),
        (JStr _ | JUndefined | JNull), (JNum _ | JUndefined | JNull) => true
      | _, _, _ => false
      end
  | _ => false
  end.

(** A value on which one of the checks throws: [null]; a value whose
    [location] is truthy and not a string; or, when the itinerary has an
    event, a value whose [name] is not a string. *)
Definition unreadable (events : list Event) (s : JSValue) : Prop :=
  s = JNull
  \/ (exists v, get s "location" = Normal v /\ truthy v = true /\
                forall l, v <> JStr l)
  \/ (events <> [] /\
      exists v, get s "name" = Normal v /\ forall n, v <> JStr n).

(** * Properties *)

(** ** Facts about strings *)

Lemma append_cons (c : ascii) (s t : string) :
  String c s +:+ t = String c (s +:+ t).
Proof. reflexivity. Qed.

Lemma append_nil (t : string) : EmptyString +:+ t = t.
Proof. reflexivity. Qed.

Lemma prefix_spec (p s : string) :
  String.prefix p s = true <-> exists post, s = p +:+ post.
Proof.
  revert s. induction p as [|a p IH]; intros s.
  - split; [intros _; now exists s | intros _; now destruct s].
  - destruct s as [|b s]; simpl.
    + split; [discriminate | intros [post Hpost]; discriminate].
    + destruct (Ascii.ascii_dec a b) as [->|Hne].
      * rewrite IH. split; intros [post Hpost]; exists post;
          rewrite append_cons in *; congruence.
      * split; [discriminate | intros [post Hpost]; rewrite append_cons in Hpost; congruence].
Qed.

Lemma includes_spec (s sub : string) :
  Str.includes s sub = true <-> occurs_in sub s.
Proof.
  unfold occurs_in. induction s as [|c s IH].
  - cbn [Str.includes]. rewrite orb_false_r, prefix_spec. split.
    + intros [post Hpost]. now exists EmptyString, post.
    + intros [pre [post Heq]]. destruct pre; [now exists post | discriminate].
  - cbn [Str.includes]. rewrite orb_true_iff, prefix_spec, IH. split.
    + intros [[post Hpost] | [pre [post Heq]]].
      * now exists EmptyString, post.
      * exists (String c pre), post. rewrite append_cons. congruence.
    + intros [pre [post Heq]]. destruct pre as [|c' pre];
        rewrite ?append_cons, ?append_nil in Heq.
      * left. now exists post.
      * right. exists pre, post. congruence.
Qed.

Lemma includes_empty (s : string) : Str.includes s EmptyString = true.
Proof. apply includes_spec. now exists EmptyString, s. Qed.

Lemma nonempty_spec (s : string) : Str.nonempty s = true <-> s <> EmptyString.
Proof. destruct s; simpl; split; congruence. Qed.

Lemma length_pos_nonempty (s : string) :
  (0 <? String.length s)%nat = Str.nonempty s.
Proof. destruct s; reflexivity. Qed.

Lemma or_else_empty (s : string) : Str.or_else s EmptyString = s.
Proof. destruct s; reflexivity. Qed.

Lemma trimStart_empty (s : string) :
  Str.trimStart s = EmptyString <-> Str.all_chars Str.is_space s = true.
Proof.
  induction s as [|c s IH]; simpl; [tauto|].
  destruct (Str.is_space c); simpl; [exact IH | split; discriminate].
Qed.

Lemma trimEnd_empty (s : string) :
  Str.trimEnd s = EmptyString <-> Str.all_chars Str.is_space s = true.
Proof.
  induction s as [|c s IH]; simpl; [tauto|].
  destruct (Str.trimEnd s) eqn:E.
  - destruct (Str.is_space c); simpl; [|split; discriminate].
    split; intros _; [now apply IH | reflexivity].
  - split; [discriminate|]. rewrite andb_true_iff. intros [_ H].
    apply IH in H. discriminate.
Qed.

Lemma trimStart_spaces (s : string) :
  Str.all_chars Str.is_space (Str.trimStart s) = Str.all_chars Str.is_space s.
Proof.
  induction s as [|c s IH]; simpl; [reflexivity|].
  destruct (Str.is_space c) eqn:E; simpl; [exact IH | now rewrite E].
Qed.

Lemma trim_empty (s : string) :
  Str.trim s = EmptyString <-> Str.all_chars Str.is_space s = true.
Proof. unfold Str.trim. now rewrite trimEnd_empty, trimStart_spaces. Qed.

(** Lower-casing a character that is no ASCII letter or digit gives no
    character of [[a-z0-9]], and lower-casing one that is gives one. *)
Lemma lower_char_alnum (c : ascii) :
  Str.is_lower (Str.lower_char c) || Str.is_digit (Str.lower_char c) = Str.alnum c.
Proof. destruct c as [[] [] [] [] [] [] [] []]; reflexivity. Qed.

Lemma lower_digit_not_space (c : ascii) :
  Str.is_lower c || Str.is_digit c = true -> Str.is_space c = false.
Proof. destruct c as [[] [] [] [] [] [] [] []]; simpl; intros H; try reflexivity; discriminate H. Qed.

Lemma strip_spaces (s : string) :
  Str.all_chars Str.is_space (Str.strip s) =
  Str.all_chars (fun c => negb (Str.is_lower c || Str.is_digit c)) s.
Proof.
  induction s as [|c s IH]; simpl; [reflexivity|].
  unfold Str.kept. destruct (Str.is_lower c || Str.is_digit c) eqn:E; simpl.
  - now rewrite (lower_digit_not_space c E).
  - destruct (Str.is_space c) eqn:Es; simpl; [|exact IH]. now rewrite Es.
Qed.

Lemma toLowerCase_no_alnum (s : string) :
  Str.all_chars (fun c => negb (Str.is_lower c || Str.is_digit c)) (Str.toLowerCase s) =
  Str.all_chars (fun c => negb (Str.alnum c)) s.
Proof.
  induction s as [|c s IH]; simpl; [reflexivity|].
  now rewrite lower_char_alnum, IH.
Qed.

(** A text normalizes to the empty string exactly when it has no ASCII
    letter and no digit. *)
Lemma normalize_empty (text : string) :
  normalize text = EmptyString <->
  Str.all_chars (fun c => negb (Str.alnum c)) text = true.
Proof.
  unfold normalize. now rewrite trim_empty, strip_spaces, toLowerCase_no_alnum.
Qed.

(** ** Budget calculator *)

Lemma reduce_approved (l : list Binary64.Event) (sum : float) :
  fold_left (fun sum e => (sum + Binary64.cost e)%float)
            (List.filter (fun e => Binary64.approved e) l) sum =
  approved_total sum l.
Proof.
  revert sum. induction l as [|e l IH]; intros sum; simpl; [reflexivity|].
  destruct (Binary64.approved e); simpl; apply IH.
Qed.

Lemma approved_total_app (l1 l2 : list Binary64.Event) (sum : float) :
  approved_total sum (l1 ++ l2) = approved_total (approved_total sum l1) l2.
Proof.
  revert sum. induction l1 as [|e l1 IH]; intros sum; simpl; [reflexivity|].
  apply IH.
Qed.

Lemma approved_total_filter (l : list Binary64.Event) (sum : float) :
  approved_total sum (List.filter (fun e => Binary64.approved e) l) =
  approved_total sum l.
Proof.
  revert sum. induction l as [|e l IH]; intros sum; simpl; [reflexivity|].
  destruct (Binary64.approved e) eqn:E; simpl; [rewrite E|]; apply IH.
Qed.

Lemma getRemainingBudget_eq (i : Binary64.Itinerary) :
  Binary64.getRemainingBudget i =
  (Binary64.budget i - approved_total 0 (Binary64.events i))%float.
Proof.
  unfold Binary64.getRemainingBudget. cbv zeta. now rewrite reduce_approved.
Qed.

(** C7. For every itinerary, [getRemainingBudget] is the budget minus the sum
    of the costs of exactly the events with [approved = true], the sum being
    taken in doubles from 0 in the order of the events.  An event with
    [approved = false], pending or rejected, never affects the result: it
    can be taken out, exchanged for any other event with [approved = false]
    whatever its cost, and all of them can be taken out at once.  The result
    is a plain number and can be negative: a budget of 100 with an approved
    event of 150 gives -50. *)
Theorem getRemainingBudget_spec (itinerary : Binary64.Itinerary) :
  Binary64.getRemainingBudget itinerary =
    (Binary64.budget itinerary - approved_total 0 (Binary64.events itinerary))%float
  /\ (forall before e after,
        Binary64.events itinerary = before ++ e :: after ->
        Binary64.approved e = false ->
        Binary64.getRemainingBudget itinerary =
        Binary64.getRemainingBudget (with_events itinerary (before ++ after)))
  /\ (forall before e e' after,
        Binary64.events itinerary = before ++ e :: after ->
        Binary64.approved e = false -> Binary64.approved e' = false ->
        Binary64.getRemainingBudget itinerary =
        Binary64.getRemainingBudget (with_events itinerary (before ++ e' :: after)))
  /\ Binary64.getRemainingBudget itinerary =
     Binary64.getRemainingBudget
       (with_events itinerary
          (List.filter (fun e => Binary64.approved e) (Binary64.events itinerary)))
  /\ Binary64.getRemainingBudget
       (rome_with 100 [event_costing "Colosseum Tour" 150 false true])
     = (-50)%float.
Proof.
  split; [apply getRemainingBudget_eq|].
  split; [|split; [|split; [|reflexivity]]].
  - intros before e after Hev Hno. rewrite !getRemainingBudget_eq, Hev. simpl.
    rewrite !approved_total_app. simpl. now rewrite Hno.
  - intros before e e' after Hev Hno Hno'. rewrite !getRemainingBudget_eq, Hev.
    simpl. rewrite !approved_total_app. simpl. now rewrite Hno, Hno'.
  - rewrite !getRemainingBudget_eq. simpl. now rewrite approved_total_filter.
Qed.

(** The example of the specification: with a budget of 1000, one approved
    event of 150 leaves 850, and a pending event of 9999 or a rejected one
    changes nothing. *)
Example remaining_850 :
  Binary64.getRemainingBudget
    (rome_with 1000
       [event_costing "Colosseum Tour" 150 false true;
        event_costing "Private Jet" 9999 true false;
        event_costing "Helicopter" 5000 false false]) = 850%float.
Proof. reflexivity. Qed.

(** The sum is a sum of doubles.  After an approved cost of 2^53 an
    approved cost of 1 is lost in the rounding; and a budget of 0.3 less
    approved costs of 0.1 and 0.2 is not 0 but -2^-54. *)
Example remaining_rounded :
  Binary64.getRemainingBudget
    (rome_with 0
       [event_costing "Palazzo" 9007199254740992 false true;
        event_costing "Espresso" 1 false true]) = (-9007199254740992)%float
  /\ Binary64.getRemainingBudget
       (rome_with 0x1.3333333333333p-2
          [event_costing "Espresso" 0x1.999999999999ap-4 false true;
           event_costing "Gelato" 0x1.999999999999ap-3 false true])
     = (-0x1p-54)%float.
Proof. split; reflexivity. Qed.

(** ** Destination check *)

Lemma location_matches_spec (loc destination : string) (events : list Event) :
  location_matches loc destination events = true <->
  location_justified loc destination events.
Proof.
  unfold location_matches, location_justified.
  rewrite andb_true_iff, orb_true_iff, nonempty_spec, includes_spec, existsb_exists.
  split; intros [Hloc Hm]; (split; [exact Hloc|]).
  - destruct Hm as [Hd | [e [Hin He]]]; [now left | right].
    apply andb_true_iff in He as [Hne Hinc].
    exists e. now rewrite <- nonempty_spec, <- includes_spec.
  - destruct Hm as [Hd | [e [Hin [Hne Hinc]]]]; [now left | right].
    exists e. split; [exact Hin|].
    apply andb_true_iff. now rewrite nonempty_spec, includes_spec.
Qed.

Lemma existsb_filter_map {A B} (g : A -> B) (p f : B -> bool) (l : list A) :
  existsb f (List.filter p (map g l)) = existsb (fun x => p (g x) && f (g x)) l.
Proof.
  induction l as [|x l IH]; simpl; [reflexivity|].
  destruct (p (g x)); simpl; now rewrite IH.
Qed.

Lemma existsb_pointwise {A} (f g : A -> bool) (l : list A) :
  (forall x, f x = g x) -> existsb f l = existsb g l.
Proof. intros E. induction l as [|x l IH]; simpl; [reflexivity | now rewrite E, IH]. Qed.

(** On a suggestion whose [location] is a string the check does not throw
    and answers [location_matches]. *)
Lemma validateDestination_string
    (suggestion : JSValue) (destination : string) (events : list Event) (loc : string) :
  get suggestion "location" = Normal (JStr loc) ->
  validateDestination suggestion destination events =
  Normal (location_matches loc destination events).
Proof.
  intros Hget. unfold validateDestination, location_matches. rewrite Hget. simpl.
  destruct loc as [|c loc]; [reflexivity|]. simpl.
  rewrite existsb_filter_map. do 2 f_equal.
  apply existsb_pointwise. intros e. now rewrite length_pos_nonempty, or_else_empty.
Qed.

(** On a suggestion with no [location] the check answers [false]. *)
Lemma validateDestination_missing
    (suggestion : JSValue) (destination : string) (events : list Event) (loc : JSValue) :
  get suggestion "location" = Normal loc -> truthy loc = false ->
  validateDestination suggestion destination events = Normal false.
Proof.
  intros Hget Hf. unfold validateDestination. rewrite Hget. simpl. now rewrite Hf.
Qed.

Lemma validateDestination_true
    (suggestion : JSValue) (destination : string) (events : list Event) :
  validateDestination suggestion destination events = Normal true <->
  exists loc, get suggestion "location" = Normal (JStr loc) /\
              location_justified loc destination events.
Proof.
  split.
  - intros Hv. destruct (get suggestion "location") as [v|e] eqn:Hget.
    + assert (Hstr : exists loc, v = JStr loc).
      { unfold validateDestination in Hv. rewrite Hget in Hv.
        cbn [bind] in Hv. unfold js_or in Hv.
        destruct (truthy v) eqn:Ht; cbn [negb bind] in Hv; [|discriminate Hv].
        destruct v as [| |b|n|loc|elems|props]; try discriminate Hv.
        now exists loc. }
      destruct Hstr as [loc ->].
      exists loc. split; [reflexivity|].
      rewrite (validateDestination_string _ _ _ _ Hget) in Hv.
      apply location_matches_spec. congruence.
    + unfold validateDestination in Hv. rewrite Hget in Hv. discriminate Hv.
  - intros [loc [Hget Hj]]. rewrite (validateDestination_string _ _ _ _ Hget).
    f_equal. now apply location_matches_spec.
Qed.

(** C3, as amended. [validateDestination] accepts a suggestion if and only
    if its location is a string that is not empty and, after normalizing
    both sides (lower case, only [a-z], [0-9] and white space kept, trimmed),
    contains the destination, or contains the location of some event of the
    itinerary (approved or not) whose normal form is not empty.  For the
    destination "Rome, Italy", "Trastevere, Rome, Italy" is accepted and
    "Paris, France" is rejected with no event, and with an event elsewhere. *)
Theorem validateDestination_spec :
  (forall (suggestion : JSValue) (destination : string) (events : list Event),
     validateDestination suggestion destination events = Normal true <->
     exists loc, get suggestion "location" = Normal (JStr loc) /\
                 location_justified loc destination events)
  /\ normalize "Rome, Italy" = "rome italy"
  /\ normalize " Trastevere, Rome, Italy " = "trastevere rome italy"
  /\ validateDestination
       (suggestion_object "Trastevere Food Tour" 60 "Dining" "Trastevere, Rome, Italy" 3)
       "Rome, Italy" [] = Normal true
  /\ validateDestination
       (suggestion_object "Louvre Museum" 20 "Museum" "Paris, France" 3)
       "Rome, Italy" [] = Normal false
  /\ validateDestination
       (suggestion_object "Louvre Museum" 20 "Museum" "Paris, France" 3)
       "Rome, Italy" [pending_event "Colosseum Tour" 150 "Rome, Italy"] = Normal false.
Proof.
  split; [exact validateDestination_true|].
  repeat split; reflexivity.
Qed.

(** The claim C3 as stated fails on an event with an empty location: every
    text contains the empty string, so the condition of the specification
    holds of "Paris, France", and the code rejects it. *)
Lemma validateDestination_not_as_specified :
  validateDestination
    (suggestion_object "Louvre Museum" 20 "Museum" "Paris, France" 3)
    "Rome, Italy" [pending_event "Dinner" 80 ""] = Normal false
  /\ destination_check_as_specified
       "Paris, France" "Rome, Italy" [pending_event "Dinner" 80 ""].
Proof.
  split; [reflexivity|].
  right. exists (pending_event "Dinner" 80 ""). split; [now left|].
  apply includes_spec. reflexivity.
Qed.

(** C10. If the destination has no letter and no digit, it normalizes to
    the empty string and [validateDestination] accepts every suggestion
    whose location is a string that is not empty; what [validateAllSuggestions]
    then records against the suggestion comes from the budget and the
    duplicate check alone. *)
Theorem empty_destination_accepts `{rt : Runtime}
    (suggestion : JSValue) (destination : string) (events : list Event)
    (budget : Z) (loc : string) :
  Str.all_chars (fun c => negb (Str.alnum c)) destination = true ->
  get suggestion "location" = Normal (JStr loc) ->
  loc <> EmptyString ->
  normalize destination = EmptyString
  /\ validateDestination suggestion destination events = Normal true
  /\ collect_issues suggestion events destination budget =
     (do okBudget <- validateBudget suggestion budget;
      do dup <- isDuplicate events suggestion;
      Normal ((if negb okBudget then ["Exceeds remaining budget"] else []) ++
              (if dup then ["Duplicate of existing event"] else []))).
Proof.
  intros Hdest Hget Hloc.
  assert (Hnorm : normalize destination = EmptyString) by now apply normalize_empty.
  assert (Hok : validateDestination suggestion destination events = Normal true).
  { apply validateDestination_true. exists loc. split; [exact Hget|].
    split; [exact Hloc|]. left. rewrite Hnorm. apply includes_spec, includes_empty. }
  repeat split; [exact Hnorm | exact Hok |].
  unfold collect_issues. rewrite Hok. simpl.
  destruct (validateBudget suggestion budget) as [okBudget|]; [|reflexivity]. simpl.
  destruct (isDuplicate events suggestion) as [dup|]; [|reflexivity]. simpl.
  now destruct okBudget, dup.
Qed.

(** The destination "!!!" and a suggestion in Paris: the hypotheses hold,
    and the suggestion is accepted on destination grounds. *)
Lemma empty_destination_accepts_witness :
  Str.all_chars (fun c => negb (Str.alnum c)) "!!!" = true
  /\ get louvre "location" = Normal (JStr "Paris, France")
  /\ "Paris, France" <> EmptyString
  /\ normalize "!!!" = EmptyString
  /\ validateDestination louvre "!!!" [] = Normal true.
Proof.
  assert (Hloc : "Paris, France" <> EmptyString) by discriminate.
  destruct (@empty_destination_accepts (runtime_parsing JNull) louvre "!!!" [] 100
              "Paris, France" eq_refl eq_refl Hloc) as [Hn [Hv _]].
  repeat split; assumption.
Defined.

(** ** Validation of a candidate list *)

Lemma Array_some_pure {A} (f : A -> Completion bool) (g : A -> bool) (l : list A) :
  (forall x, f x = Normal (g x)) -> Array_some f l = Normal (existsb g l).
Proof.
  intros E. induction l as [|x l IH]; simpl; [reflexivity|].
  rewrite E. simpl. destruct (g x); [reflexivity | exact IH].
Qed.

Section Validation.
Context `{rt : Runtime}.
Variables (events : list Event) (destination : string) (budget : Z).

Lemma validateBudget_suggestion (s : JSValue) :
  is_Suggestion s = true ->
  validateBudget s budget = Normal (cost_of s <=? budget).
Proof.
  destruct s as [| | | | | |props]; try discriminate. simpl.
  destruct (lookup_prop props "name"); try discriminate.
  destruct (lookup_prop props "location"); try discriminate.
  all: destruct (lookup_prop props "cost") as [| | |n| | |] eqn:E; try discriminate;
    intros _; unfold validateBudget; simpl; rewrite E; try reflexivity.
  all: unfold js_or; simpl; destruct (Z.eqb_spec n 0) as [->|]; reflexivity.
Qed.

Lemma isDuplicate_named (s : JSValue) (n : string) :
  get s "name" = Normal (JStr n) ->
  isDuplicate events s =
  Normal (existsb (fun e => String.eqb (Str.toLowerCase (name e)) (Str.toLowerCase n))
                  events).
Proof.
  intros Hget. unfold isDuplicate.
  apply Array_some_pure. intros e. now rewrite Hget.
Qed.

Lemma is_Suggestion_name (s : JSValue) :
  is_Suggestion s = true -> get s "name" = Normal (JStr (name_of s)).
Proof.
  destruct s as [| | | | | |props]; try discriminate. simpl.
  destruct (lookup_prop props "name"); try discriminate. reflexivity.
Qed.

Lemma validateDestination_suggestion (s : JSValue) :
  is_Suggestion s = true ->
  validateDestination s destination events =
  Normal (location_matches (location_of s) destination events).
Proof.
  destruct s as [| | | | | |props]; try discriminate. simpl.
  destruct (lookup_prop props "name"); try discriminate.
  destruct (lookup_prop props "location") as [| | | |loc| |] eqn:E; try discriminate;
    intros _.
  - apply (validateDestination_missing _ _ _ JUndefined); simpl; now rewrite ?E.
  - apply (validateDestination_missing _ _ _ JNull); simpl; now rewrite ?E.
  - apply validateDestination_string. simpl. now rewrite E.
Qed.

Lemma collect_issues_suggestion (s : JSValue) :
  is_Suggestion s = true ->
  exists issues,
    collect_issues s events destination budget = Normal issues /\
    (0 <? length issues)%nat = negb (passes_all_checks s events destination budget).
Proof.
  intros Hs. pose proof (is_Suggestion_name s Hs) as Hname.
  unfold collect_issues, passes_all_checks, name_taken.
  rewrite (validateDestination_suggestion s Hs),
          (validateBudget_suggestion s Hs), (isDuplicate_named s _ Hname).
  simpl. eexists. split; [reflexivity|].
  destruct (location_matches _ _ _), (cost_of s <=? budget), (existsb _ _);
    reflexivity.
Qed.

Lemma validate_loop_suggestions (suggestions acc : list JSValue) :
  Forall (fun s => is_Suggestion s = true) suggestions ->
  validate_loop suggestions events destination budget acc =
  Normal (acc ++ List.filter
                   (fun s => passes_all_checks s events destination budget)
                   suggestions).
Proof.
  intros Hall. revert acc.
  induction Hall as [|s l Hs Hl IH]; intros acc; simpl.
  - now rewrite app_nil_r.
  - destruct (collect_issues_suggestion s Hs) as [issues [-> Hlen]]. simpl.
    rewrite Hlen, (is_Suggestion_name s Hs).
    destruct (passes_all_checks s events destination budget); simpl.
    + rewrite IH. now rewrite <- app_assoc.
    + apply IH.
Qed.

End Validation.

Lemma filter_sublist {A} (p : A -> bool) (l : list A) : sublist (List.filter p l) l.
Proof.
  induction l as [|x l IH]; simpl; [constructor|].
  destruct (p x); now constructor.
Qed.

(** C2. On every list of candidates that fit [interface Suggestion] (the
    cost may be missing), and for every event list, destination and
    remaining budget, [validateAllSuggestions] returns exactly the
    candidates that pass the destination check, whose cost (0 when missing)
    is at most the budget, and whose name equals no event's name up to
    case; they come in their original order, as a subsequence of the
    input. *)
Theorem validateAllSuggestions_spec `{rt : Runtime}
    (suggestions : list JSValue) (events : list Event)
    (destination : string) (budget : Z) :
  Forall (fun s => is_Suggestion s = true) suggestions ->
  validateAllSuggestions suggestions events destination budget =
    Normal (List.filter (fun s => passes_all_checks s events destination budget)
                        suggestions)
  /\ sublist (List.filter (fun s => passes_all_checks s events destination budget)
                          suggestions)
             suggestions.
Proof.
  intros Hall. split; [|apply filter_sublist].
  unfold validateAllSuggestions.
  now rewrite (validate_loop_suggestions events destination budget suggestions []).
Qed.

(** The five candidates fit [interface Suggestion]; with 50 left and the
    event "Colosseum Tour", the second and the fifth are returned, in that
    order. *)
Lemma validateAllSuggestions_spec_witness :
  Forall (fun s => is_Suggestion s = true) five_candidates
  /\ validateAllSuggestions (rt := runtime_parsing JNull)
       five_candidates [colosseum] "Rome, Italy" 50
     = Normal [suggestion_object "Trevi Fountain" 50 "Sightseeing" "Rome, Italy" 1;
               JObj [("name", JStr "Pantheon"); ("location", JStr "Rome, Italy")]].
Proof.
  assert (Hall : Forall (fun s => is_Suggestion s = true) five_candidates)
    by (repeat constructor).
  split; [exact Hall|].
  exact (proj1 (@validateAllSuggestions_spec (runtime_parsing JNull) five_candidates
                  [colosseum] "Rome, Italy" 50 Hall)).
Defined.

(** ** What an accepted candidate has passed *)

Section Accepted.
Context `{rt : Runtime}.
Variables (events : list Event) (destination : string) (budget : Z).

(** A candidate with no issue has passed the three checks. *)
Lemma collect_issues_none (s : JSValue) (issues : list string) :
  collect_issues s events destination budget = Normal issues ->
  (0 <? length issues)%nat = false ->
  validateDestination s destination events = Normal true /\
  validateBudget s budget = Normal true /\
  isDuplicate events s = Normal false.
Proof.
  unfold collect_issues.
  destruct (validateDestination s destination events) as [[]|]; simpl;
    destruct (validateBudget s budget) as [[]|]; simpl;
    destruct (isDuplicate events s) as [[]|]; simpl;
    intros Heq Hlen; try discriminate Heq;
    injection Heq as <-; try discriminate Hlen; auto.
Qed.

Lemma validate_loop_accepts
    (P : JSValue -> Prop) (suggestions acc result : list JSValue) :
  (forall s, validateDestination s destination events = Normal true ->
             validateBudget s budget = Normal true ->
             isDuplicate events s = Normal false -> P s) ->
  validate_loop suggestions events destination budget acc = Normal result ->
  Forall P acc -> Forall P result.
Proof.
  intros HP. revert acc.
  induction suggestions as [|s l IH]; intros acc; simpl.
  - intros [= <-]. auto.
  - destruct (collect_issues s events destination budget) as [issues|] eqn:Hc;
      simpl; [|discriminate].
    destruct (get s "name") as [n|]; simpl;
      [|now destruct (0 <? length issues)%nat].
    destruct (template_text n) as [shown|]; simpl;
      [|now destruct (0 <? length issues)%nat].
    destruct (0 <? length issues)%nat eqn:Hlen; intros Hrun Hacc.
    + now apply (IH acc).
    + apply (IH (acc ++ [s])); [exact Hrun|].
      destruct (collect_issues_none s issues Hc Hlen) as [Hd [Hb Hn]].
      apply Forall_app. split; [exact Hacc|]. constructor; [|constructor]. auto.
Qed.

End Accepted.

(** What the requester returns on a reply that is a text. *)
Lemma requestSuggestionFromLLM_resolved `{rt : Runtime}
    (itinerary : Itinerary) (text : string) :
  requestSuggestionFromLLM itinerary (Resolved text) =
  match jsonMatch text with
  | None => Normal []
  | Some span =>
      match JSON_parse span with
      | Normal (JArr elems) =>
          match validateAllSuggestions elems (events itinerary)
                  (destination (trip itinerary)) (getRemainingBudget itinerary) with
          | Normal validated => Normal validated
          | Throw _ => Normal []
          end
      | _ => Normal []
      end
  end.
Proof.
  unfold requestSuggestionFromLLM, request_attempt, request_body. cbv zeta.
  cbn [await]. destruct (jsonMatch text) as [span|]; [|reflexivity].
  destruct (JSON_parse span) as [v|e]; [|reflexivity]. cbn [bind].
  destruct v as [| | | | |elems|]; try reflexivity.
  now destruct (validateAllSuggestions elems _ _ _) as [validated|e].
Qed.

(** A resolved value that is a string behaves as the text it is; any other
    resolved value has no method [match], and the [TypeError] is caught. *)
Lemma requestSuggestionFromLLM_resolved_with `{rt : Runtime}
    (itinerary : Itinerary) (v : JSValue) :
  requestSuggestionFromLLM itinerary (ResolvedWith v) =
  match v with
  | JStr text => requestSuggestionFromLLM itinerary (Resolved text)
  | _ => Normal []
  end.
Proof. now destruct v. Qed.

(** A rejection is caught; reading the message of what was caught throws
    on [undefined] and [null]. *)
Lemma requestSuggestionFromLLM_rejected `{rt : Runtime}
    (itinerary : Itinerary) (reason : Caught) :
  requestSuggestionFromLLM itinerary (Rejected reason) =
  match reason with
  | Value JUndefined | Value JNull => Throw TypeError
  | _ => Normal []
  end.
Proof. destruct reason as [e|v]; [reflexivity | now destruct v]. Qed.

Lemma requestSuggestionFromLLM_cases `{rt : Runtime}
    (itinerary : Itinerary) (llm : LLMOutcome) :
  requestSuggestionFromLLM itinerary llm = Normal [] \/
  (nullish_rejection llm /\
   requestSuggestionFromLLM itinerary llm = Throw TypeError) \/
  exists elems validated,
    validateAllSuggestions elems (events itinerary) (destination (trip itinerary))
                           (getRemainingBudget itinerary) = Normal validated /\
    requestSuggestionFromLLM itinerary llm = Normal validated.
Proof.
  assert (Htext : forall text,
    requestSuggestionFromLLM itinerary (Resolved text) = Normal [] \/
    exists elems validated,
      validateAllSuggestions elems (events itinerary) (destination (trip itinerary))
                             (getRemainingBudget itinerary) = Normal validated /\
      requestSuggestionFromLLM itinerary (Resolved text) = Normal validated).
  { intros text. rewrite requestSuggestionFromLLM_resolved.
    destruct (jsonMatch text) as [span|]; [|now left].
    destruct (JSON_parse span) as [v|e]; [|now left].
    destruct v as [| | | | |elems|]; try now left.
    destruct (validateAllSuggestions elems _ _ _) as [validated|e] eqn:Hv;
      [|now left].
    right. now exists elems, validated. }
  destruct llm as [text|reason|v].
  - destruct (Htext text) as [H|H]; [now left | now right; right].
  - rewrite requestSuggestionFromLLM_rejected. unfold nullish_rejection.
    destruct reason as [e|v]; [now left|].
    destruct v; try (now left); right; left; auto.
  - rewrite requestSuggestionFromLLM_resolved_with.
    destruct v; try now left.
    destruct (Htext s) as [H|H]; [now left | now right; right].
Qed.

(** C6, as amended. For every itinerary, every suggestion that the
    validation of a parsed candidate list returns, and every suggestion the
    requester returns, has a location that is a string, not empty, whose
    normal form contains the normal form of the destination or the normal
    form, not empty, of the location of some event of the itinerary,
    approved or not.  The requester returns such a list on every outcome of
    the gateway call but a rejection with [undefined] or [null], on which
    it returns nothing. *)
Theorem returned_suggestions_justified `{rt : Runtime} (itinerary : Itinerary) :
  (forall elems result,
     validateAllSuggestions elems (events itinerary) (destination (trip itinerary))
                            (getRemainingBudget itinerary) = Normal result ->
     Forall (suggestion_justified (destination (trip itinerary)) (events itinerary))
            result)
  /\ (forall llm,
        (nullish_rejection llm /\
         requestSuggestionFromLLM itinerary llm = Throw TypeError) \/
        exists result,
          requestSuggestionFromLLM itinerary llm = Normal result /\
          Forall (suggestion_justified (destination (trip itinerary))
                                       (events itinerary)) result).
Proof.
  assert (Hv : forall elems result,
     validateAllSuggestions elems (events itinerary) (destination (trip itinerary))
                            (getRemainingBudget itinerary) = Normal result ->
     Forall (suggestion_justified (destination (trip itinerary)) (events itinerary))
            result).
  { intros elems result Hrun. unfold validateAllSuggestions in Hrun.
    refine (validate_loop_accepts _ _ _ _ _ _ _ _ Hrun _); [|constructor].
    intros s Hd _ _. now apply validateDestination_true. }
  split; [exact Hv|].
  intros llm. destruct (requestSuggestionFromLLM_cases itinerary llm)
    as [-> | [Hnull | [elems [validated [Hrun ->]]]]].
  - right. exists []. split; [reflexivity | constructor].
  - now left.
  - right. exists validated. split; [reflexivity|]. now apply (Hv elems).
Qed.

(** The claim C6 as stated fails: the requester returns a suggestion in
    Paris that only a pending event justifies. *)
Lemma pending_event_justifies :
  requestSuggestionFromLLM (rt := runtime_parsing (JArr [louvre]))
    spring_break (Resolved "[ the reply ]") = Normal [louvre]
  /\ ~ justified_by_approved (destination (trip spring_break)) (events spring_break)
                             louvre.
Proof.
  split; [reflexivity|].
  intros [loc [Hget [Hd | [e [Hin [Happ _]]]]]].
  - injection Hget as <-. apply includes_spec in Hd. discriminate Hd.
  - destruct Hin as [<- | []]. discriminate Happ.
Qed.

(** ** What the requester throws *)

(** C1 on the code.  The [catch] block reads [error.message] before it
    returns the empty list.  When the gateway promise is rejected with
    [undefined] or with [null], that read throws a [TypeError] inside the
    [catch] block and [requestSuggestionFromLLM] throws it to its caller,
    for every itinerary.  These are the only outcomes on which it throws. *)
Theorem nullish_rejection_is_thrown `{rt : Runtime} (itinerary : Itinerary) :
  requestSuggestionFromLLM itinerary (Rejected (Value JUndefined)) = Throw TypeError
  /\ requestSuggestionFromLLM itinerary (Rejected (Value JNull)) = Throw TypeError
  /\ (forall llm,
        (exists e, requestSuggestionFromLLM itinerary llm = Throw e) <->
        nullish_rejection llm).
Proof.
  split; [reflexivity|]. split; [reflexivity|].
  intros llm. split.
  - intros [e He]. destruct (requestSuggestionFromLLM_cases itinerary llm)
      as [H | [[Hnull _] | [elems [validated [_ H]]]]];
      [rewrite H in He; discriminate He | exact Hnull
      | rewrite H in He; discriminate He].
  - intros [-> | ->]; now exists TypeError.
Qed.

(** ** A candidate without a name *)

(** C5 on the code.  A candidate without a location is rejected and the
    valid candidate after it is returned.  A candidate without a name makes
    [isDuplicate] throw as soon as the itinerary has an event: the loop of
    [validateAllSuggestions] stops there, the valid candidate after it is
    never looked at, and the requester returns the empty list. *)
Lemma nameless_candidate_aborts :
  validateAllSuggestions (rt := runtime_parsing JNull)
    [placeless; trevi] [colosseum] "Rome, Italy" 2350 = Normal [trevi]
  /\ validateAllSuggestions (rt := runtime_parsing JNull)
       [trevi] [colosseum] "Rome, Italy" 2350 = Normal [trevi]
  /\ isDuplicate [colosseum] nameless = Throw TypeError
  /\ validateAllSuggestions (rt := runtime_parsing JNull)
       [nameless; trevi] [colosseum] "Rome, Italy" 2350 = Throw TypeError
  /\ requestSuggestionFromLLM (rt := runtime_parsing (JArr [trevi]))
       rome (Resolved "[ the reply ]") = Normal [trevi]
  /\ requestSuggestionFromLLM (rt := runtime_parsing (JArr [nameless; trevi]))
       rome (Resolved "[ the reply ]") = Normal [].
Proof. repeat split; reflexivity. Qed.

(** ** The span that is parsed *)

Lemma append_assoc (a b c : string) : (a +:+ b) +:+ c = a +:+ (b +:+ c).
Proof.
  induction a as [|x a IH]; [reflexivity|].
  now rewrite !append_cons, IH.
Qed.

Lemma no_char_app (c : ascii) (a b : string) :
  no_char c (a +:+ b) = no_char c a && no_char c b.
Proof.
  unfold no_char. induction a as [|x a IH]; [reflexivity|].
  rewrite append_cons. simpl. now rewrite IH, andb_assoc.
Qed.

Lemma no_char_cons_same (c : ascii) (s : string) : no_char c (String c s) = false.
Proof. unfold no_char. simpl. now rewrite Ascii.eqb_refl. Qed.

Lemma after_first_open_none (s : string) :
  after_first_open s = None <-> no_char "[" s = true.
Proof.
  unfold no_char. induction s as [|c s IH]; simpl; [tauto|].
  destruct (Ascii.eqb c "["); simpl; [split; discriminate | exact IH].
Qed.

Lemma after_first_open_spec (s rest : string) :
  after_first_open s = Some rest <->
  exists pre, s = pre +:+ String "[" rest /\ no_char "[" pre = true.
Proof.
  revert rest. induction s as [|c s IH]; intros rest; simpl.
  - split; [discriminate|]. intros [pre [Heq _]]. destruct pre; discriminate Heq.
  - destruct (Ascii.eqb_spec c "[") as [->|Hne].
    + split.
      * intros [= ->]. now exists EmptyString.
      * intros [pre [Heq Hno]]. destruct pre as [|x pre].
        -- rewrite append_nil in Heq. congruence.
        -- rewrite append_cons in Heq. injection Heq as <- _.
           now rewrite no_char_cons_same in Hno.
    + rewrite IH. split; intros [pre [Heq Hno]].
      * exists (String c pre). rewrite append_cons, Heq. split; [reflexivity|].
        unfold no_char in *. simpl. rewrite Hno.
        now destruct (Ascii.eqb_spec c "[").
      * destruct pre as [|x pre].
        -- rewrite append_nil in Heq. congruence.
        -- rewrite append_cons in Heq. injection Heq as <- ->.
           exists pre. split; [reflexivity|].
           unfold no_char in *. simpl in Hno. now apply andb_true_iff in Hno.
Qed.

Lemma upto_last_close_none (s : string) :
  upto_last_close s = None <-> no_char "]" s = true.
Proof.
  unfold no_char. induction s as [|c s IH]; simpl; [tauto|].
  destruct (upto_last_close s).
  - split; [discriminate|]. rewrite andb_true_iff. intros [_ Hs].
    apply IH in Hs. discriminate Hs.
  - destruct (Ascii.eqb c "]"); simpl; [split; discriminate|].
    split; intros _; [now apply IH | reflexivity].
Qed.

Lemma upto_last_close_spec (s body : string) :
  upto_last_close s = Some body <->
  exists mid post,
    s = mid +:+ String "]" post /\ body = mid +:+ String "]" EmptyString /\
    no_char "]" post = true.
Proof.
  revert body. induction s as [|c s IH]; intros body; simpl.
  - split; [discriminate|]. intros [mid [post [Heq _]]]. destruct mid; discriminate Heq.
  - destruct (upto_last_close s) as [r|] eqn:Hr.
    + split.
      * intros [= <-]. destruct (proj1 (IH r) eq_refl) as [mid [post [-> [-> Hno]]]].
        exists (String c mid), post. now rewrite !append_cons.
      * intros [mid' [post' [Heq [-> Hno']]]]. destruct mid' as [|x mid'].
        -- rewrite append_nil in Heq. injection Heq as -> ->.
           apply upto_last_close_none in Hno'. congruence.
        -- rewrite append_cons in Heq. injection Heq as <- ->.
           rewrite append_cons. do 2 f_equal.
           assert (Some r = Some (mid' +:+ String "]" EmptyString)) as [= ->];
             [|reflexivity].
           apply IH. now exists mid', post'.
    + apply upto_last_close_none in Hr.
      destruct (Ascii.eqb_spec c "]") as [->|Hne].
      * split.
        -- intros [= <-]. now exists EmptyString, s.
        -- intros [mid [post [Heq [-> Hno]]]]. destruct mid as [|x mid].
           ++ reflexivity.
           ++ rewrite append_cons in Heq. injection Heq as <- ->.
              rewrite no_char_app, no_char_cons_same, andb_false_r in Hr.
              discriminate Hr.
      * split; [discriminate|].
        intros [mid [post [Heq _]]]. destruct mid as [|x mid].
        -- rewrite append_nil in Heq. congruence.
        -- rewrite append_cons in Heq. injection Heq as <- ->.
           rewrite no_char_app, no_char_cons_same, andb_false_r in Hr.
           discriminate Hr.
Qed.

Lemma jsonMatch_no_close (s : string) :
  no_char "]" s = true -> jsonMatch s = None.
Proof.
  unfold no_char. induction s as [|c s IH]; simpl; [reflexivity|].
  rewrite andb_true_iff. intros [_ Hs].
  rewrite (proj2 (upto_last_close_none s) Hs).
  destruct (Ascii.eqb c "["); now apply IH.
Qed.

(** The leftmost match starts at the first opening bracket: a closing
    bracket after a later opening bracket is also after the first one. *)
Lemma jsonMatch_first_open (text : string) :
  jsonMatch text =
  match after_first_open text with
  | None => None
  | Some rest => option_map (String "[") (upto_last_close rest)
  end.
Proof.
  induction text as [|c s IH]; simpl; [reflexivity|].
  destruct (Ascii.eqb_spec c "[") as [->|Hne]; [|exact IH].
  destruct (upto_last_close s) as [body|] eqn:Hc; [reflexivity|].
  apply jsonMatch_no_close. now apply upto_last_close_none.
Qed.

Lemma jsonMatch_some (text span : string) :
  jsonMatch text = Some span <->
  exists pre mid post,
    text = pre +:+ span +:+ post /\
    span = String "[" (mid +:+ String "]" EmptyString) /\
    no_char "[" pre = true /\ no_char "]" post = true.
Proof.
  rewrite jsonMatch_first_open. split.
  - destruct (after_first_open text) as [rest|] eqn:Ho; [|discriminate].
    destruct (upto_last_close rest) as [body|] eqn:Hc; [|discriminate].
    intros [= <-].
    apply after_first_open_spec in Ho as [pre [-> Hpre]].
    apply upto_last_close_spec in Hc as [mid [post [-> [-> Hpost]]]].
    exists pre, mid, post. repeat split; try assumption.
    now rewrite !append_cons, append_assoc, append_cons, append_nil.
  - intros [pre [mid [post [-> [-> [Hpre Hpost]]]]]].
    assert (Ho : after_first_open
                   (pre +:+ String "[" (mid +:+ String "]" EmptyString) +:+ post)
                 = Some (mid +:+ String "]" post)).
    { apply after_first_open_spec. exists pre. split; [|exact Hpre].
      now rewrite !append_cons, append_assoc, append_cons, append_nil. }
    rewrite Ho.
    assert (Hc : upto_last_close (mid +:+ String "]" post)
                 = Some (mid +:+ String "]" EmptyString)).
    { apply upto_last_close_spec. now exists mid, post. }
    now rewrite Hc.
Qed.

Lemma after_first_open_suffix (pre t r : string) :
  after_first_open (pre +:+ String "[" t) = Some r -> exists x, r = x +:+ t.
Proof.
  induction pre as [|c pre IH].
  - rewrite append_nil. simpl. intros [= <-]. now exists EmptyString.
  - rewrite append_cons. simpl. destruct (Ascii.eqb c "[").
    + intros [= <-]. exists (pre +:+ String "[" EmptyString).
      now rewrite append_assoc, append_cons, append_nil.
    + exact IH.
Qed.

Lemma jsonMatch_none (text : string) :
  jsonMatch text = None <->
  forall pre mid post, text <> pre +:+ String "[" (mid +:+ String "]" post).
Proof.
  split.
  - intros Hnone pre mid post ->. rewrite jsonMatch_first_open in Hnone.
    destruct (after_first_open _) as [rest|] eqn:Ho.
    + apply after_first_open_suffix in Ho as [x ->].
      destruct (upto_last_close _) eqn:Hc; [discriminate|].
      apply upto_last_close_none in Hc.
      rewrite !no_char_app, no_char_cons_same, !andb_false_r in Hc. discriminate Hc.
    + apply after_first_open_none in Ho.
      rewrite no_char_app, no_char_cons_same, andb_false_r in Ho. discriminate Ho.
  - intros Hno. destruct (jsonMatch text) as [span|] eqn:Hm; [|reflexivity].
    apply jsonMatch_some in Hm as [pre [mid [post [-> [-> _]]]]].
    destruct (Hno pre mid post).
    now rewrite !append_cons, append_assoc, append_cons, append_nil.
Qed.

(** Validation reads the runtime through [le_coerced] alone. *)
Lemma validate_loop_parse_irrelevant
    (parse parse' : string -> Completion JSValue) (stringify : string -> string)
    (le : JSValue -> Z -> Completion bool) (show : JSValue -> Completion string)
    (suggestions : list JSValue) (events : list Event) (destination : string)
    (budget : Z) (acc : list JSValue) :
  validate_loop (rt := Build_Runtime parse stringify le show)
    suggestions events destination budget acc =
  validate_loop (rt := Build_Runtime parse' stringify le show)
    suggestions events destination budget acc.
Proof.
  revert acc. induction suggestions as [|s l IH]; intros acc; [reflexivity|].
  cbn [validate_loop].
  change (collect_issues (rt := Build_Runtime parse stringify le show)
            s events destination budget)
    with (collect_issues (rt := Build_Runtime parse' stringify le show)
            s events destination budget).
  destruct (collect_issues s events destination budget) as [issues|]; [|reflexivity].
  cbn [bind]. destruct (get s "name") as [n|]; cbn [bind];
    [|now destruct (0 <? length issues)%nat].
  change (template_text (rt := Build_Runtime parse stringify le show) n)
    with (template_text (rt := Build_Runtime parse' stringify le show) n).
  destruct (template_text n) as [shown|]; cbn [bind];
    [|now destruct (0 <? length issues)%nat].
  destruct (0 <? length issues)%nat; apply IH.
Qed.

(** C4, as amended. For every reply, the span given to [JSON.parse] runs
    from the first opening bracket of the reply to its last closing
    bracket; there is none exactly when no closing bracket follows an
    opening one, and the requester then returns the empty list.  That span
    is parsed and the value of the parse is what the requester goes on
    with: when [JSON.parse] rejects the span or the value is no array the
    requester returns the empty list, and when the value is an array it
    returns what the validation of that array returns, or the empty list
    when the validation throws.  The result depends on [JSON.parse] through
    that span alone.  When the reply holds several bracketed arrays the
    span runs from the start of the first to the end of the last: a
    [JSON.parse] that accepts only that text gives the requester its
    array, and one that accepts only the first array gives it nothing. *)
Theorem jsonMatch_spec :
  (forall text span,
     jsonMatch text = Some span <->
     exists pre mid post,
       text = pre +:+ span +:+ post /\
       span = String "[" (mid +:+ String "]" EmptyString) /\
       no_char "[" pre = true /\ no_char "]" post = true)
  /\ (forall text,
        jsonMatch text = None <->
        forall pre mid post, text <> pre +:+ String "[" (mid +:+ String "]" post))
  /\ (forall (rt : Runtime) itinerary text span,
        jsonMatch text = Some span ->
        requestSuggestionFromLLM itinerary (Resolved text) =
        match JSON_parse span with
        | Normal (JArr elems) =>
            match validateAllSuggestions elems (events itinerary)
                    (destination (trip itinerary)) (getRemainingBudget itinerary) with
            | Normal validated => Normal validated
            | Throw _ => Normal []
            end
        | _ => Normal []
        end)
  /\ (forall parse parse' stringify le show itinerary text span,
        jsonMatch text = Some span ->
        parse span = parse' span ->
        requestSuggestionFromLLM (rt := Build_Runtime parse stringify le show)
          itinerary (Resolved text) =
        requestSuggestionFromLLM (rt := Build_Runtime parse' stringify le show)
          itinerary (Resolved text))
  /\ (forall (rt : Runtime) itinerary text,
        jsonMatch text = None ->
        requestSuggestionFromLLM itinerary (Resolved text) = Normal [])
  /\ jsonMatch "Here you go: [1] and [2]. Enjoy!" = Some "[1] and [2]"
  /\ requestSuggestionFromLLM (rt := runtime_parsing_only "[1] and [2]" (JArr [trevi]))
       rome (Resolved "Here you go: [1] and [2]. Enjoy!") = Normal [trevi]
  /\ requestSuggestionFromLLM (rt := runtime_parsing_only "[1]" (JArr [trevi]))
       rome (Resolved "Here you go: [1] and [2]. Enjoy!") = Normal [].
Proof.
  split; [exact jsonMatch_some|].
  split; [exact jsonMatch_none|].
  split; [|split; [|split; [|split; [|split]]]]; try reflexivity.
  - intros rt itinerary text span Hm.
    now rewrite requestSuggestionFromLLM_resolved, Hm.
  - intros parse parse' stringify le show itinerary text span Hm Hp.
    rewrite !requestSuggestionFromLLM_resolved, Hm.
    cbn [JSON_parse]. rewrite Hp.
    destruct (parse' span) as [v|e]; [|reflexivity].
    destruct v; try reflexivity. unfold validateAllSuggestions.
    now rewrite (validate_loop_parse_irrelevant parse parse').
  - intros rt itinerary text Hm.
    now rewrite requestSuggestionFromLLM_resolved, Hm.
Qed.

Lemma jsonMatch_not_first_balanced :
  first_balanced_span "[1] and [2]" = Some "[1]"
  /\ jsonMatch "[1] and [2]" = Some "[1] and [2]"
  /\ jsonMatch "[1] and [2]" <> first_balanced_span "[1] and [2]".
Proof. split; [reflexivity | split; [reflexivity | discriminate]]. Qed.

(** ** Itinerary store *)

Lemma create_throws (σ : Store) (trip' : ref) (budget' : Z) :
  registered σ trip' -> create σ trip' budget' = Throw DuplicateTripError.
Proof.
  intros [i [Hin Ht]]. unfold create.
  destruct (List.find (fun i => Nat.eqb (trip i) trip') (itineraries σ)) eqn:Hf;
    [reflexivity|].
  apply (find_none _ _ Hf) in Hin. apply Nat.eqb_neq in Hin. contradiction.
Qed.

Lemma create_returns (σ : Store) (trip' : ref) (budget' : Z) :
  ~ registered σ trip' ->
  create σ trip' budget' =
  Normal (length (itineraries σ),
          {| trip_heap := trip_heap σ;
             event_heap := event_heap σ;
             itineraries := itineraries σ ++ [new_itinerary trip' budget'] |}).
Proof.
  intros Hno. unfold create.
  destruct (List.find (fun i => Nat.eqb (trip i) trip') (itineraries σ)) as [i|] eqn:Hf;
    [|reflexivity].
  destruct (find_some _ _ Hf) as [Hin Ht]. apply Nat.eqb_eq in Ht.
  destruct Hno. now exists i.
Qed.

Lemma registered_dec (σ : Store) (trip' : ref) :
  registered σ trip' \/ ~ registered σ trip'.
Proof.
  unfold registered.
  destruct (List.find (fun i => Nat.eqb (trip i) trip') (itineraries σ)) as [i|] eqn:Hf.
  - left. destruct (find_some _ _ Hf) as [Hin Ht]. apply Nat.eqb_eq in Ht. now exists i.
  - right. intros [i [Hin Ht]]. apply (find_none _ _ Hf) in Hin.
    apply Nat.eqb_neq in Hin. contradiction.
Qed.

Lemma registered_after_create (σ : Store) (trip' other : ref) (budget' : Z) :
  registered
    {| trip_heap := trip_heap σ; event_heap := event_heap σ;
       itineraries := itineraries σ ++ [new_itinerary trip' budget'] |} other
  <-> registered σ other \/ other = trip'.
Proof.
  unfold registered. simpl. split.
  - intros [i [Hin Ht]]. apply in_app_or in Hin as [Hin | [<- | []]].
    + left. now exists i.
    + right. now rewrite <- Ht.
  - intros [[i [Hin Ht]] | ->].
    + exists i. split; [apply in_or_app; now left | exact Ht].
    + exists (new_itinerary trip' budget'). split; [|reflexivity].
      apply in_or_app. right. now left.
Qed.

(** C8. [create(trip, budget)] throws the duplicate trip error if and only
    if an itinerary of the store holds that very [Trip] reference, and it
    throws nothing else.  Otherwise it registers, after the itineraries
    already there, a new itinerary with that trip, no events,
    [finalized = false] and the given budget, and returns it; a second
    [create] for the same reference then throws.  What the [Trip] objects
    contain plays no part: for two references that are distinct and not yet
    registered both calls succeed, also when the two objects have the same
    field values. *)
Theorem create_spec (σ : Store) (trip' : ref) (budget' : Z) :
  (create σ trip' budget' = Throw DuplicateTripError <-> registered σ trip')
  /\ (forall e, create σ trip' budget' = Throw e -> e = DuplicateTripError)
  /\ (~ registered σ trip' ->
      exists r σ',
        create σ trip' budget' = Normal (r, σ') /\
        itineraries σ' = itineraries σ ++ [new_itinerary trip' budget'] /\
        itineraries σ' !! r = Some (new_itinerary trip' budget') /\
        trip_heap σ' = trip_heap σ /\ event_heap σ' = event_heap σ /\
        (forall again, create σ' trip' again = Throw DuplicateTripError))
  /\ (forall (other : ref) (budget'' : Z) (t : Trip),
        trip_heap σ !! trip' = Some t -> trip_heap σ !! other = Some t ->
        other <> trip' -> ~ registered σ trip' -> ~ registered σ other ->
        exists r σ' r' σ'',
          create σ trip' budget' = Normal (r, σ') /\
          create σ' other budget'' = Normal (r', σ'') /\
          r <> r' /\
          itineraries σ'' !! r = Some (new_itinerary trip' budget') /\
          itineraries σ'' !! r' = Some (new_itinerary other budget'')).
Proof.
  split; [|split; [|split]].
  - split; [|apply create_throws].
    intros Hthrow. destruct (registered_dec σ trip') as [Hr|Hno]; [exact Hr|].
    rewrite (create_returns _ _ _ Hno) in Hthrow. discriminate Hthrow.
  - intros e He. destruct (registered_dec σ trip') as [Hr|Hno].
    + rewrite (create_throws _ _ _ Hr) in He. congruence.
    + rewrite (create_returns _ _ _ Hno) in He. discriminate He.
  - intros Hno. eexists _, _. split; [apply (create_returns _ _ _ Hno)|]. simpl.
    repeat split.
    + now apply list_lookup_middle.
    + intros again. apply create_throws. apply registered_after_create. now right.
  - intros other budget'' t _ _ Hne Hno Hno'.
    eexists _, _, _, _. split; [apply (create_returns _ _ _ Hno)|].
    split.
    + apply create_returns. rewrite registered_after_create. tauto.
    + simpl. rewrite length_app. simpl. split; [lia|]. split.
      * rewrite lookup_app_l by (rewrite length_app; simpl; lia).
        now apply list_lookup_middle.
      * apply list_lookup_middle. rewrite length_app. simpl. lia.
Qed.

(** Two [Trip] objects with the same field values, an itinerary for each,
    and a second itinerary for the first. *)
Example two_trips_alike :
  let σ1 := (new_trip empty_store (trip_to "Rome, Italy")).2 in
  let σ2 := (new_trip σ1 (trip_to "Rome, Italy")).2 in
  trip_heap σ2 !! 0%nat = trip_heap σ2 !! 1%nat
  /\ exists σ3 σ4,
       create σ2 0%nat 2500 = Normal (0%nat, σ3)
       /\ create σ3 1%nat 2500 = Normal (1%nat, σ4)
       /\ create σ4 0%nat 1000 = Throw DuplicateTripError.
Proof. simpl. split; [reflexivity|]. eexists _, _. repeat split. Qed.

(** ** Event manager *)

Lemma create_keeps_events (σ σ' : Store) (trip' r : ref) (budget' : Z) :
  create σ trip' budget' = Normal (r, σ') -> event_heap σ' = event_heap σ.
Proof.
  unfold create.
  destruct (List.find (fun i => Nat.eqb (trip i) trip') (itineraries σ));
    [discriminate|].
  now intros [= _ <-].
Qed.

Lemma setEventApproval_lookup (σ : Store) (event : ref) (approved' : bool) (ev : Event) :
  event_heap σ !! event = Some ev ->
  event_heap (setEventApproval σ event approved') !! event =
  Some {| name := name ev; cost := cost ev; start := start ev; end_ := end_ ev;
          location := location ev; pending := false; approved := approved' |}.
Proof.
  intros Hev. unfold setEventApproval, with_event_heap. cbn [event_heap].
  now rewrite list_lookup_alter_eq, Hev.
Qed.

Lemma step_decided_or_pending (σ σ' : Store) :
  step σ σ' -> decided_or_pending σ -> decided_or_pending σ'.
Proof.
  unfold decided_or_pending.
  intros Hstep Hinv e ev.
  destruct Hstep;
    unfold new_trip, addEvent, updateEvent, setEventApproval, finalizeItinerary,
           with_event_heap;
    cbn [event_heap snd].
  - apply Hinv.
  - rewrite (create_keeps_events _ _ _ _ _ H0). apply Hinv.
  - rewrite lookup_snoc_Some. intros [[_ Hold] | [_ <-]].
    + now apply (Hinv e).
    + simpl. intros [Ha _]. discriminate Ha.
  - rewrite list_lookup_alter. case_decide as Heq.
    + subst e. destruct (event_heap σ !! event) as [old|] eqn:Hold; [|discriminate].
      simpl. intros [= <-]. simpl. now apply (Hinv event).
    + apply Hinv.
  - rewrite list_lookup_alter. case_decide as Heq.
    + subst e. destruct (event_heap σ !! event) as [old|] eqn:Hold; [|discriminate].
      simpl. intros [= <-]. simpl. intros [_ Hp]. discriminate Hp.
    + apply Hinv.
  - apply Hinv.
Qed.

(** C9. The event [addEvent] makes is pending and not approved, and is the
    last event of its itinerary.  After [setEventApproval(e, v)] the event
    [e] has [approved = v] and [pending = false], whatever it was before,
    and nothing else about it changes.  In every store that calls of the
    operations can reach, no event is both approved and pending. *)
Theorem approval_clears_pending :
  (forall σ name' cost' location' itinerary start' end',
     let r := addEvent σ name' cost' location' itinerary start' end' in
     event_heap r.2 !! r.1 =
       Some {| name := name'; cost := cost'; start := start'; end_ := end';
               location := location'; pending := true; approved := false |}
     /\ (forall e ev, event_heap σ !! e = Some ev -> event_heap r.2 !! e = Some ev)
     /\ (forall i, itineraries σ !! itinerary = Some i ->
                   itineraries r.2 !! itinerary = Some (push_event r.1 i)))
  /\ (forall σ event approved' ev,
        event_heap σ !! event = Some ev ->
        exists ev',
          event_heap (setEventApproval σ event approved') !! event = Some ev' /\
          approved ev' = approved' /\ pending ev' = false /\
          name ev' = name ev /\ cost ev' = cost ev /\ location ev' = location ev /\
          start ev' = start ev /\ end_ ev' = end_ ev)
  /\ (forall σ, reachable σ -> decided_or_pending σ).
Proof.
  split; [|split].
  - intros σ name' cost' location' itinerary start' end'. cbv zeta.
    unfold addEvent. cbn [event_heap itineraries fst snd].
    split; [now apply list_lookup_middle|]. split.
    + intros e ev Hev. rewrite lookup_app_l; [exact Hev|].
      apply lookup_lt_is_Some_1. now exists ev.
    + intros i Hi. now rewrite list_lookup_alter_eq, Hi.
  - intros σ event approved' ev Hev. eexists. split.
    + exact (setEventApproval_lookup σ event approved' ev Hev).
    + simpl. repeat split.
  - intros σ Hreach. unfold reachable in Hreach. revert σ Hreach.
    apply (rtc_ind_r decided_or_pending).
    + intros e ev Hev. simpl in Hev. now rewrite lookup_nil in Hev.
    + intros y z _ Hstep Hy. now apply (step_decided_or_pending y z).
Qed.

(** The second test of the suite run in the store: a trip, its itinerary, an
    event, its approval, then the remaining budget of what the itinerary
    refers to. *)
Example colosseum_approved :
  let σ1 := (new_trip empty_store (trip_to "Rome, Italy")).2 in
  exists σ2,
    create σ1 0%nat 2500 = Normal (0%nat, σ2) /\
    let σ3 := (addEvent σ2 "Colosseum Tour" 150 "Rome, Italy" 0%nat
                        "2025-06-03T10:00:00Z" "2025-06-03T12:00:00Z").2 in
    let σ4 := setEventApproval σ3 0%nat true in
    reachable σ4 /\
    (itineraries σ3 !! 0%nat ≫= deref σ3) =
      Some (itinerary_of "Rome, Italy"
              [pending_event "Colosseum Tour" 150 "Rome, Italy"] 2500) /\
    (itineraries σ4 !! 0%nat ≫= deref σ4) = Some rome /\
    (getRemainingBudget <$> (itineraries σ3 !! 0%nat ≫= deref σ3)) = Some 2500 /\
    (getRemainingBudget <$> (itineraries σ4 !! 0%nat ≫= deref σ4)) = Some 2350.
Proof.
  cbv zeta. eexists. split; [reflexivity|]. split; [|repeat split].
  unfold reachable.
  eapply rtc_r; [eapply rtc_r; [eapply rtc_r; [eapply rtc_r; [apply rtc_refl|]|]|]|].
  - apply (step_new_trip _ (trip_to "Rome, Italy")).
  - eapply (step_create _ 0%nat 2500); [simpl; lia | reflexivity].
  - apply (step_addEvent _ "Colosseum Tour" 150 "Rome, Italy" 0%nat
                         "2025-06-03T10:00:00Z" "2025-06-03T12:00:00Z"). simpl. lia.
  - apply (step_setEventApproval _ 0%nat true). simpl. lia.
Qed.

(** * Further properties of the code *)

(** ** Event manager: edits and decisions *)

(** X1. [updateEvent] overwrites the name, the cost, the start and the end
    of the event and keeps its location and its approval state ([pending]
    and [approved]); no other event, no itinerary and no trip changes. *)
Theorem updateEvent_spec
    (σ : Store) (event : ref) (name' : string) (cost' : Z) (start' end' : string) :
  (forall ev, event_heap σ !! event = Some ev ->
     exists ev',
       event_heap (updateEvent σ event name' cost' start' end') !! event = Some ev' /\
       name ev' = name' /\ cost ev' = cost' /\ start ev' = start' /\ end_ ev' = end' /\
       location ev' = location ev /\ pending ev' = pending ev /\
       approved ev' = approved ev)
  /\ (forall other, other <> event ->
        event_heap (updateEvent σ event name' cost' start' end') !! other =
        event_heap σ !! other)
  /\ length (event_heap (updateEvent σ event name' cost' start' end')) =
     length (event_heap σ)
  /\ itineraries (updateEvent σ event name' cost' start' end') = itineraries σ
  /\ trip_heap (updateEvent σ event name' cost' start' end') = trip_heap σ.
Proof.
  unfold updateEvent, with_event_heap. cbn [event_heap itineraries trip_heap].
  split; [|split; [|split; [|split]]]; try reflexivity.
  - intros ev Hev. eexists. split.
    + rewrite list_lookup_alter_eq, Hev. reflexivity.
    + simpl. repeat split.
  - intros other Hne. now apply list_lookup_alter_ne.
  - apply length_alter.
Qed.

(** X2. The last decision on an event is the one that stands: a second
    [setEventApproval] on the same event gives the store that it alone would
    give, so deciding twice the same way is deciding once.  Decisions on
    two different events can be taken in either order, and a decision
    changes no other event. *)
Theorem setEventApproval_last_wins (σ : Store) (event : ref) (first second : bool) :
  setEventApproval (setEventApproval σ event first) event second =
    setEventApproval σ event second
  /\ setEventApproval (setEventApproval σ event second) event second =
     setEventApproval σ event second
  /\ (forall other decision, other <> event ->
        setEventApproval (setEventApproval σ event first) other decision =
        setEventApproval (setEventApproval σ other decision) event first)
  /\ (forall other, other <> event ->
        event_heap (setEventApproval σ event first) !! other = event_heap σ !! other).
Proof.
  assert (Hcompose : forall a b,
            setEventApproval (setEventApproval σ event a) event b =
            setEventApproval σ event b).
  { intros a b. unfold setEventApproval, with_event_heap.
    cbn [event_heap itineraries trip_heap]. f_equal.
    now rewrite list_alter_alter_eq. }
  split; [apply Hcompose|]. split; [apply Hcompose|]. split.
  - intros other decision Hne. unfold setEventApproval, with_event_heap.
    cbn [event_heap itineraries trip_heap]. f_equal.
    now apply list_alter_alter_ne.
  - intros other Hne. unfold setEventApproval, with_event_heap. cbn [event_heap].
    now apply list_lookup_alter_ne.
Qed.


(** ** Finalizing *)

Lemma deref_finalized (σ σ' : Store) (i : Itinerary_ ref ref) (flag : bool) :
  trip_heap σ' = trip_heap σ -> event_heap σ' = event_heap σ ->
  getRemainingBudget
    <$> deref σ' {| trip := trip i; events := events i;
                    finalized := flag; budget := budget i |}
  = getRemainingBudget <$> deref σ i.
Proof.
  intros Ht He. unfold deref. rewrite Ht, He. cbn [trip events finalized budget].
  destruct (trip_heap σ !! trip i) as [t|]; [|reflexivity]. cbn.
  destruct (mapM (fun e => event_heap σ !! e) (events i)) as [es|]; reflexivity.
Qed.

(** X3. [finalizeItinerary] sets the flag of its itinerary and nothing
    else, and the flag holds nothing back: the remaining budget of every
    itinerary is what it was, and adding an event or deciding on one after
    finalizing gives the store that finalizing afterwards gives. *)
Theorem finalizeItinerary_freezes_nothing
    (σ : Store) (itinerary : ref) (finalized' : bool) :
  (forall i, itineraries σ !! itinerary = Some i ->
     exists i',
       itineraries (finalizeItinerary σ itinerary finalized') !! itinerary = Some i' /\
       finalized i' = finalized' /\ trip i' = trip i /\ events i' = events i /\
       budget i' = budget i)
  /\ (forall other, other <> itinerary ->
        itineraries (finalizeItinerary σ itinerary finalized') !! other =
        itineraries σ !! other)
  /\ event_heap (finalizeItinerary σ itinerary finalized') = event_heap σ
  /\ trip_heap (finalizeItinerary σ itinerary finalized') = trip_heap σ
  /\ (forall any, remaining (finalizeItinerary σ itinerary finalized') any =
                  remaining σ any)
  /\ (forall name' cost' location' target start' end',
        addEvent (finalizeItinerary σ itinerary finalized')
                 name' cost' location' target start' end' =
        ((addEvent σ name' cost' location' target start' end').1,
         finalizeItinerary (addEvent σ name' cost' location' target start' end').2
                           itinerary finalized'))
  /\ (forall event approved',
        setEventApproval (finalizeItinerary σ itinerary finalized') event approved' =
        finalizeItinerary (setEventApproval σ event approved') itinerary finalized').
Proof.
  split; [|split; [|split; [|split; [|split; [|split]]]]]; try reflexivity.
  - intros i Hi. eexists. split.
    + unfold finalizeItinerary. cbn [itineraries].
      rewrite list_lookup_alter_eq, Hi. reflexivity.
    + simpl. repeat split.
  - intros other Hne. unfold finalizeItinerary. cbn [itineraries].
    now apply list_lookup_alter_ne.
  - intros any. unfold remaining.
    assert (Hits : itineraries (finalizeItinerary σ itinerary finalized') =
                   alter (fun i => {| trip := trip i; events := events i;
                                      finalized := finalized'; budget := budget i |})
                         itinerary (itineraries σ)) by reflexivity.
    rewrite Hits, list_lookup_alter. case_decide as Heq; [subst any|reflexivity].
    destruct (itineraries σ !! itinerary) as [i|]; [|reflexivity].
    cbn. now apply deref_finalized.
  - intros name' cost' location' target start' end'.
    unfold addEvent, finalizeItinerary.
    cbn [event_heap itineraries trip_heap fst snd]. do 2 f_equal.
    rewrite list_alter_alter. case_decide as Heq; [subst target|reflexivity].
    rewrite list_alter_alter_eq. now apply list_alter_ext.
Qed.


(** ** The shape of the stores the operations reach *)

Lemma refs_after_push (l : list (Itinerary_ ref ref)) (it e : ref) (i : Itinerary_ ref ref) :
  l !! it = Some i ->
  mjoin (events <$> alter (push_event e) it l) ≡ₚ e :: mjoin (events <$> l).
Proof.
  revert it. induction l as [|x l IH]; intros [|it] Hi; try discriminate Hi.
  - cbn. rewrite <- app_assoc. cbn.
    rewrite <- Permutation_middle. reflexivity.
  - cbn. rewrite (IH it Hi). rewrite <- Permutation_middle. reflexivity.
Qed.

Lemma fmap_alter_same {A B} (g : A -> B) (f : A -> A) (l : list A) (i : nat) :
  (forall x, g (f x) = g x) -> g <$> alter f i l = g <$> l.
Proof.
  intros Hg. revert i. induction l as [|x l IH]; intros [|i]; cbn; [easy..| |].
  - now rewrite Hg.
  - now rewrite IH.
Qed.

Lemma well_formed_empty : well_formed empty_store.
Proof.
  repeat split; cbn; try constructor.
  - intros He. now apply elem_of_nil in He.
  - lia.
Qed.

Lemma well_formed_step (σ σ' : Store) :
  step σ σ' -> well_formed σ -> well_formed σ'.
Proof.
  intros Hstep (Htrips & Huniq & Hnodup & Hrefs).
  destruct Hstep as [σ t | σ trip' budget' r σ' Hvalid Hcreate
                    | σ name' cost' location' it start' end' Hvalid
                    | σ event name' cost' start' end' Hvalid
                    | σ event approved' Hvalid
                    | σ it finalized' Hvalid].
  - unfold well_formed, all_event_refs, new_trip.
    cbn [snd trip_heap event_heap itineraries].
    repeat split; try assumption; try apply Hrefs.
    eapply Forall_impl; [exact Htrips|]. intros i Hi. cbn beta in *.
    rewrite length_app. lia.
  - destruct (registered_dec σ trip') as [Hreg | Hno].
    { rewrite (create_throws _ _ _ Hreg) in Hcreate. discriminate Hcreate. }
    rewrite (create_returns _ _ _ Hno) in Hcreate. injection Hcreate as <- <-.
    unfold well_formed, all_event_refs in *.
    cbn [trip_heap event_heap itineraries] in *.
    rewrite !fmap_app, join_app. cbn. rewrite app_nil_r.
    repeat split; try assumption; try apply Hrefs.
    + apply Forall_app. split; [exact Htrips|]. now repeat constructor.
    + apply NoDup_app. split; [exact Huniq|]. split; [|apply NoDup_singleton].
      intros x Hx Hin. apply list_elem_of_singleton in Hin. subst x.
      apply list_elem_of_fmap in Hx as [i [Ht Hi]]. apply Hno.
      exists i. split; [now apply list_elem_of_In | now symmetry].
  - destruct (lookup_lt_is_Some_2 _ _ Hvalid) as [i Hi].
    unfold well_formed, all_event_refs, addEvent in *.
    cbn [snd trip_heap event_heap itineraries] in *.
    split; [|split; [|split]].
    + apply Forall_alter; [exact Htrips|]. now intros x _ Hx.
    + now rewrite fmap_alter_same.
    + rewrite (refs_after_push _ _ _ _ Hi). apply NoDup_cons. split; [|exact Hnodup].
      intros Hin. apply Hrefs in Hin. lia.
    + intros e. rewrite (refs_after_push _ _ _ _ Hi), elem_of_cons, Hrefs, length_app.
      cbn. lia.
  - unfold well_formed, all_event_refs, updateEvent, with_event_heap in *.
    cbn [trip_heap event_heap itineraries] in *.
    repeat split; try assumption; rewrite length_alter; apply Hrefs.
  - unfold well_formed, all_event_refs, setEventApproval, with_event_heap in *.
    cbn [trip_heap event_heap itineraries] in *.
    repeat split; try assumption; rewrite length_alter; apply Hrefs.
  - unfold well_formed, all_event_refs, finalizeItinerary in *.
    cbn [trip_heap event_heap itineraries] in *.
    rewrite !fmap_alter_same by reflexivity.
    repeat split; try assumption; try apply Hrefs.
    apply Forall_alter; [exact Htrips|]. now intros x _ Hx.
Qed.

Lemma reachable_is_well_formed (σ : Store) : reachable σ -> well_formed σ.
Proof.
  intros Hreach. unfold reachable in Hreach. revert σ Hreach.
  apply (rtc_ind_r well_formed); [apply well_formed_empty|].
  intros y z _ Hstep Hy. now apply (well_formed_step y z).
Qed.

Lemma NoDup_join_elem {A} (ls : list (list A)) (l : list A) :
  NoDup (mjoin ls) -> l ∈ ls -> NoDup l.
Proof.
  induction ls as [|x ls IH]; intros Hnd Hin; [now apply elem_of_nil in Hin|].
  cbn in Hnd. apply NoDup_app in Hnd as (Hx & _ & Hls).
  apply elem_of_cons in Hin as [-> | Hin]; auto.
Qed.

Lemma well_formed_itinerary (σ : Store) (it : ref) (i : Itinerary_ ref ref) :
  well_formed σ -> itineraries σ !! it = Some i ->
  is_Some (deref σ i) /\ NoDup (events i) /\
  (forall e, e ∈ events i -> is_Some (event_heap σ !! e)).
Proof.
  intros (Htrips & _ & Hnodup & Hrefs) Hi.
  assert (Hin : events i ∈ events <$> itineraries σ).
  { apply list_elem_of_fmap. exists i. split; [reflexivity|].
    now apply (list_elem_of_lookup_2 _ it). }
  assert (Hev : forall e, e ∈ events i -> is_Some (event_heap σ !! e)).
  { intros e He. apply lookup_lt_is_Some_2, Hrefs.
    apply list_elem_of_join. now exists (events i). }
  split; [|split; [now apply (NoDup_join_elem _ _ Hnodup)|exact Hev]].
  unfold deref.
  destruct (lookup_lt_is_Some_2 (trip_heap σ) (trip i)) as [t ->].
  { exact (proj1 (Forall_lookup _ _) Htrips it i Hi). }
  cbn.
  destruct (mapM_is_Some_2 (fun e => event_heap σ !! e) (events i)) as [es ->];
    [|now eexists].
  apply Forall_forall. intros e He. now apply Hev.
Qed.

Lemma reachable_rome_store : reachable rome_store.
Proof.
  unfold reachable, rome_store.
  eapply rtc_r; [eapply rtc_r; [eapply rtc_r; [apply rtc_refl|]|]|].
  - apply (step_new_trip _ (trip_to "Rome, Italy")).
  - eapply (step_create _ 0%nat 2500); [simpl; lia | reflexivity].
  - apply (step_addEvent _ "Colosseum Tour" 150 "Rome, Italy" 0%nat
                         "2025-06-03T10:00:00Z" "2025-06-03T12:00:00Z"). simpl. lia.
Qed.

Lemma well_formed_one_owner
    (σ : Store) (e it it' : ref) (i i' : Itinerary_ ref ref) :
  well_formed σ ->
  itineraries σ !! it = Some i -> itineraries σ !! it' = Some i' ->
  e ∈ events i -> e ∈ events i' -> it' = it.
Proof.
  intros (_ & _ & Hnodup & _) Hi Hi' Hel Hel'.
  destruct (decide (it' = it)) as [|Hne]; [assumption|].
  exfalso. unfold all_event_refs in Hnodup. revert it it' Hi Hi' Hne Hnodup.
  induction (itineraries σ) as [|x l IH]; intros it it' Hi Hi' Hne Hnodup;
    [discriminate Hi|].
  cbn in Hnodup. apply NoDup_app in Hnodup as (_ & Hdisj & Hrest).
  destruct it as [|it], it' as [|it']; cbn in Hi, Hi'.
  - now destruct Hne.
  - injection Hi as ->. apply (Hdisj e Hel). apply list_elem_of_join.
    exists (events i'). split; [exact Hel'|]. apply list_elem_of_fmap.
    exists i'. split; [reflexivity | now apply (list_elem_of_lookup_2 _ it')].
  - injection Hi' as ->. apply (Hdisj e Hel'). apply list_elem_of_join.
    exists (events i). split; [exact Hel|]. apply list_elem_of_fmap.
    exists i. split; [reflexivity | now apply (list_elem_of_lookup_2 _ it)].
  - apply (IH it it'); auto.
Qed.

(** X4. In every store that calls of the operations reach, the references
    lead somewhere, so every itinerary can be read in full; no two
    itineraries hold the same trip; and every event of the store is in the
    list of exactly one itinerary, once. *)
Theorem reachable_store_shape (σ : Store) :
  reachable σ ->
  well_formed σ
  /\ (forall it i, itineraries σ !! it = Some i ->
        is_Some (deref σ i) /\ NoDup (events i))
  /\ (forall it it' i i',
        itineraries σ !! it = Some i -> itineraries σ !! it' = Some i' ->
        trip i = trip i' -> it = it')
  /\ (forall e, is_Some (event_heap σ !! e) ->
        exists it i, itineraries σ !! it = Some i /\ e ∈ events i /\
          forall it' i', itineraries σ !! it' = Some i' -> e ∈ events i' -> it' = it).
Proof.
  intros Hreach. pose proof (reachable_is_well_formed σ Hreach) as Hwf.
  split; [exact Hwf|]. split; [|split].
  - intros it i Hi. destruct (well_formed_itinerary σ it i Hwf Hi) as (? & ? & _).
    now split.
  - intros it it' i i' Hi Hi' Heq. destruct Hwf as (_ & Huniq & _).
    apply (NoDup_lookup _ it it' (trip i) Huniq).
    + now rewrite list_lookup_fmap, Hi.
    + now rewrite list_lookup_fmap, Hi', Heq.
  - intros e He. destruct Hwf as (_ & _ & Hnodup & Hrefs).
    apply lookup_lt_is_Some_1, Hrefs in He.
    unfold all_event_refs in *.
    apply list_elem_of_join in He as [l [Hel Hl]].
    apply list_elem_of_fmap in Hl as [i [-> Hi]].
    apply list_elem_of_lookup_1 in Hi as [it Hi].
    exists it, i. split; [exact Hi|]. split; [exact Hel|].
    intros it' i' Hi' Hel'.
    now apply (well_formed_one_owner σ e it it' i i' (reachable_is_well_formed σ Hreach)).
Qed.

Lemma reachable_store_shape_witness :
  reachable rome_store
  /\ well_formed rome_store.
Proof.
  split; [exact reachable_rome_store|].
  exact (proj1 (reachable_store_shape _ reachable_rome_store)).
Defined.


(** ** The remaining budget under the operations *)

Lemma reduce_costs (l : list Event) (a : Z) :
  fold_left (fun sum e => sum + cost e) l a = fold_left Z.add (map cost l) a.
Proof. revert a. induction l as [|e l IH]; intros a; [reflexivity | apply IH]. Qed.

(** The calculator reads the budget and the costs that count, and nothing
    else. *)
Lemma getRemainingBudget_counted (i j : Itinerary) :
  budget i = budget j -> counted_costs (events i) = counted_costs (events j) ->
  getRemainingBudget i = getRemainingBudget j.
Proof.
  unfold getRemainingBudget, counted_costs. cbv zeta. intros -> Hc.
  now rewrite !reduce_costs, Hc.
Qed.

Lemma counted_costs_cons (ev ev' : Event) (es es' : list Event) :
  counts_alike ev ev' -> counted_costs es' = counted_costs es ->
  counted_costs (ev' :: es') = counted_costs (ev :: es).
Proof.
  unfold counted_costs. intros [Ha Hc] Hes. simpl. rewrite Ha.
  destruct (approved ev); [|exact Hes]. simpl. now rewrite Hes, Hc.
Qed.

Lemma counts_alike_refl (ev : Event) : counts_alike ev ev.
Proof. now split. Qed.

Lemma read_events_extend (h k : list Event) (refs : list ref) (es : list Event) :
  mapM (fun r => h !! r) refs = Some es ->
  mapM (fun r => (h ++ k) !! r) refs = Some es.
Proof.
  rewrite !mapM_Some. intros Hread. eapply Forall2_impl; [exact Hread|].
  intros r ev. apply lookup_app_l_Some.
Qed.

(** Reading a list of references after one event of the heap has changed
    into a state that counts alike gives the same costs that count. *)
Lemma read_events_alter
    (h : list Event) (f : Event -> Event) (e : ref) (refs : list ref) (es : list Event) :
  mapM (fun r => h !! r) refs = Some es ->
  (e ∈ refs -> forall ev, h !! e = Some ev -> counts_alike ev (f ev)) ->
  exists es',
    mapM (fun r => alter f e h !! r) refs = Some es' /\
    counted_costs es' = counted_costs es.
Proof.
  rewrite mapM_Some. intros Hread.
  induction Hread as [|r y refs k Hy Hread IH]; intros Halike.
  - now exists [].
  - destruct IH as [k' [Hk' Hcount]].
    { intros Hin. apply Halike. now apply list_elem_of_further. }
    apply mapM_Some in Hk'.
    destruct (decide (e = r)) as [->|Hne].
    + exists (f y :: k'). split.
      * apply mapM_Some. constructor; [|exact Hk'].
        now rewrite list_lookup_alter_eq, Hy.
      * apply counted_costs_cons; [|exact Hcount].
        apply Halike; [apply list_elem_of_here | exact Hy].
    + exists (y :: k'). split.
      * apply mapM_Some. constructor; [|exact Hk'].
        now rewrite list_lookup_alter_ne.
      * apply counted_costs_cons; [apply counts_alike_refl | exact Hcount].
Qed.

(** What [remaining] reads. *)
Lemma remaining_Some (σ : Store) (it : ref) (b : Z) :
  remaining σ it = Some b <->
  exists i t es,
    itineraries σ !! it = Some i /\
    trip_heap σ !! trip i = Some t /\
    mapM (fun e => event_heap σ !! e) (events i) = Some es /\
    b = getRemainingBudget
          {| trip := t; events := es; finalized := finalized i; budget := budget i |}.
Proof.
  unfold remaining, deref. split.
  - destruct (itineraries σ !! it) as [i|] eqn:Hi; [|discriminate].
    change (Some i ≫= ?g) with (g i). cbv beta.
    destruct (trip_heap σ !! trip i) as [t|] eqn:Ht; [|discriminate].
    change (Some t ≫= ?g) with (g t). cbv beta.
    destruct (mapM (fun e => event_heap σ !! e) (events i)) as [es|] eqn:Hes;
      [|discriminate].
    change (Some es ≫= ?g) with (g es). cbv beta.
    intros [= <-]. exists i, t, es.
    split; [reflexivity|]. split; [exact Ht|]. split; [exact Hes | reflexivity].
  - intros (i & t & es & Hi & Ht & Hes & ->). rewrite Hi.
    change (Some i ≫= ?g) with (g i). cbv beta. rewrite Ht.
    change (Some t ≫= ?g) with (g t). cbv beta. rewrite Hes.
    reflexivity.
Qed.

(** Changing one event of the heap into a state that counts alike, or an
    event that the itinerary does not list, leaves the remaining budget of
    the itinerary. *)
Lemma remaining_heap_alter (σ : Store) (f : Event -> Event) (e it : ref) :
  well_formed σ ->
  (forall i ev, itineraries σ !! it = Some i -> e ∈ events i ->
                event_heap σ !! e = Some ev -> counts_alike ev (f ev)) ->
  remaining (with_event_heap σ (alter f e (event_heap σ))) it = remaining σ it.
Proof.
  intros Hwf Halike.
  destruct (itineraries σ !! it) as [i|] eqn:Hi.
  - destruct (well_formed_itinerary σ it i Hwf Hi) as (Hsome & _).
    assert (Hrem : is_Some (remaining σ it)).
    { unfold remaining. rewrite Hi. destruct Hsome as [v Hv].
      change (Some i ≫= deref σ) with (deref σ i). rewrite Hv. now eexists. }
    destruct Hrem as [b Hb]. rewrite Hb.
    apply remaining_Some in Hb as (i0 & t & es & Hi0 & Ht & Hes & ->).
    rewrite Hi in Hi0. injection Hi0 as <-.
    destruct (read_events_alter _ f e _ _ Hes) as [es' [Hes' Hcount]].
    { intros Hin ev Hev. now apply (Halike i). }
    apply remaining_Some. exists i, t, es'.
    unfold with_event_heap. cbn [itineraries trip_heap event_heap].
    repeat split; try assumption.
    now apply getRemainingBudget_counted.
  - unfold remaining, with_event_heap. cbn [itineraries]. now rewrite Hi.
Qed.

(** X5. [addEvent] changes the remaining budget of no itinerary: the new
    event is not approved. *)
Theorem addEvent_keeps_budget
    (σ : Store) (name' : string) (cost' : Z) (location' : string) (target : ref)
    (start' end' : string) (any : ref) :
  is_Some (remaining σ any) ->
  remaining (addEvent σ name' cost' location' target start' end').2 any =
  remaining σ any.
Proof.
  intros [b Hb]. rewrite Hb.
  apply remaining_Some in Hb as (i & t & es & Hi & Ht & Hes & ->).
  apply remaining_Some. unfold addEvent. cbn [snd itineraries trip_heap event_heap].
  destruct (decide (target = any)) as [->|Hne].
  - exists (push_event (length (event_heap σ)) i), t,
      (es ++ [{| name := name'; cost := cost'; start := start'; end_ := end';
                 location := location'; pending := true; approved := false |}]).
    split; [now rewrite list_lookup_alter_eq, Hi|]. split; [exact Ht|]. split.
    + cbn [events push_event]. apply mapM_Some. apply Forall2_app.
      * apply mapM_Some. now apply read_events_extend.
      * constructor; [|constructor]. now apply list_lookup_middle.
    + apply getRemainingBudget_counted; [reflexivity|].
      unfold counted_costs. cbn [events]. rewrite List.filter_app.
      cbn. now rewrite app_nil_r.
  - exists i, t, es. split; [now rewrite list_lookup_alter_ne|].
    split; [exact Ht|]. split; [now apply read_events_extend | reflexivity].
Qed.

Lemma addEvent_keeps_budget_witness :
  is_Some (remaining rome_store 0%nat)
  /\ remaining (addEvent rome_store "Trevi Fountain" 0 "Rome, Italy" 0%nat
                         "2025-06-04T10:00:00Z" "2025-06-04T11:00:00Z").2 0%nat
     = remaining rome_store 0%nat.
Proof.
  assert (Hsome : is_Some (remaining rome_store 0%nat)) by (now eexists).
  split; [exact Hsome|].
  exact (addEvent_keeps_budget rome_store "Trevi Fountain" 0 "Rome, Italy" 0%nat
           "2025-06-04T10:00:00Z" "2025-06-04T11:00:00Z" 0%nat Hsome).
Defined.

(** X6. In a store the operations reach, [setEventApproval(e, v)] leaves
    the remaining budget of every itinerary that does not list [e].  It
    leaves the remaining budget of the itinerary that lists [e] too when
    [v] is the answer the event holds already, as when a pending event is
    rejected.  And a second call that gives the event the answer it held
    before the first brings every remaining budget back to what it was:
    the calculator keeps no running total and reads the approvals anew. *)
Theorem setEventApproval_budget
    (σ : Store) (it e : ref) (i : Itinerary_ ref ref) (ev : Event) (approved' : bool) :
  reachable σ ->
  itineraries σ !! it = Some i -> e ∈ events i -> event_heap σ !! e = Some ev ->
  (forall other, other <> it ->
     remaining (setEventApproval σ e approved') other = remaining σ other)
  /\ (approved' = approved ev ->
      remaining (setEventApproval σ e approved') it = remaining σ it)
  /\ (forall any,
        remaining (setEventApproval (setEventApproval σ e approved') e (approved ev))
                  any
        = remaining σ any).
Proof.
  intros Hreach Hi Hel Hev. pose proof (reachable_is_well_formed σ Hreach) as Hwf.
  split; [|split].
  - intros other Hne. apply remaining_heap_alter; [exact Hwf|].
    intros i' ev' Hi' Hel' _. destruct Hne.
    now apply (well_formed_one_owner σ e it other i i' Hwf).
  - intros ->. apply remaining_heap_alter; [exact Hwf|].
    intros i' ev' _ _ Hev'. rewrite Hev in Hev'. injection Hev' as <-.
    now split.
  - intros any. unfold setEventApproval at 1 2, with_event_heap.
    cbn [event_heap trip_heap itineraries].
    rewrite list_alter_alter_eq.
    apply (remaining_heap_alter σ _ e any Hwf).
    intros i' ev' _ _ Hev'. rewrite Hev in Hev'. injection Hev' as <-.
    now split.
Qed.

Lemma setEventApproval_budget_witness :
  remaining (setEventApproval rome_store 0%nat false) 0%nat
  = remaining rome_store 0%nat
  /\ remaining (setEventApproval (setEventApproval rome_store 0%nat true) 0%nat false)
               0%nat
     = remaining rome_store 0%nat.
Proof.
  assert (Hel : 0%nat ∈ events (push_event 0%nat (new_itinerary 0%nat 2500)))
    by apply list_elem_of_here.
  split.
  - exact (proj1 (proj2 (setEventApproval_budget rome_store 0%nat 0%nat
                           (push_event 0%nat (new_itinerary 0%nat 2500))
                           (pending_event "Colosseum Tour" 150 "Rome, Italy") false
                           reachable_rome_store eq_refl Hel eq_refl)) eq_refl).
  - exact (proj2 (proj2 (setEventApproval_budget rome_store 0%nat 0%nat
                           (push_event 0%nat (new_itinerary 0%nat 2500))
                           (pending_event "Colosseum Tour" 150 "Rome, Italy") true
                           reachable_rome_store eq_refl Hel eq_refl)) 0%nat).
Defined.

(** X7. In a store the operations reach, [updateEvent] on [e] leaves the
    remaining budget of every itinerary that does not list [e].  It leaves
    the remaining budget of the itinerary that lists [e] too when the event
    is not approved, whatever the new cost, and when the new cost is the
    old one. *)
Theorem updateEvent_budget
    (σ : Store) (it e : ref) (i : Itinerary_ ref ref) (ev : Event)
    (name' : string) (cost' : Z) (start' end' : string) :
  reachable σ ->
  itineraries σ !! it = Some i -> e ∈ events i -> event_heap σ !! e = Some ev ->
  (forall other, other <> it ->
     remaining (updateEvent σ e name' cost' start' end') other = remaining σ other)
  /\ (approved ev = false ->
      remaining (updateEvent σ e name' cost' start' end') it = remaining σ it)
  /\ (cost' = cost ev ->
      remaining (updateEvent σ e name' cost' start' end') it = remaining σ it).
Proof.
  intros Hreach Hi Hel Hev. pose proof (reachable_is_well_formed σ Hreach) as Hwf.
  split; [|split].
  - intros other Hne. apply remaining_heap_alter; [exact Hwf|].
    intros i' ev' Hi' Hel' _. destruct Hne.
    now apply (well_formed_one_owner σ e it other i i' Hwf).
  - intros Hno. apply remaining_heap_alter; [exact Hwf|].
    intros i' ev' _ _ Hev'. rewrite Hev in Hev'. injection Hev' as <-.
    split; [reflexivity|]. rewrite Hno. discriminate.
  - intros ->. apply remaining_heap_alter; [exact Hwf|].
    intros i' ev' _ _ Hev'. rewrite Hev in Hev'. injection Hev' as <-.
    now split.
Qed.

Lemma updateEvent_budget_witness :
  remaining (updateEvent rome_store 0%nat "Colosseum Night Tour" 400
                         "2025-06-03T20:00:00Z" "2025-06-03T22:00:00Z") 0%nat
  = remaining rome_store 0%nat.
Proof.
  assert (Hel : 0%nat ∈ events (push_event 0%nat (new_itinerary 0%nat 2500)))
    by apply list_elem_of_here.
  exact (proj1 (proj2 (updateEvent_budget rome_store 0%nat 0%nat
                         (push_event 0%nat (new_itinerary 0%nat 2500))
                         (pending_event "Colosseum Tour" 150 "Rome, Italy")
                         "Colosseum Night Tour" 400
                         "2025-06-03T20:00:00Z" "2025-06-03T22:00:00Z"
                         reachable_rome_store eq_refl Hel eq_refl)) eq_refl).
Defined.


(** ** Normal forms of place names *)

Lemma lower_char_idempotent (c : ascii) :
  Str.lower_char (Str.lower_char c) = Str.lower_char c.
Proof. destruct c as [[] [] [] [] [] [] [] []]; reflexivity. Qed.

Lemma lower_char_kept (c : ascii) : Str.kept c = true -> Str.lower_char c = c.
Proof.
  destruct c as [[] [] [] [] [] [] [] []]; intros H; try reflexivity; discriminate H.
Qed.

Lemma toLowerCase_idempotent (s : string) :
  Str.toLowerCase (Str.toLowerCase s) = Str.toLowerCase s.
Proof.
  induction s as [|c s IH]; simpl; [reflexivity|].
  now rewrite lower_char_idempotent, IH.
Qed.

Lemma toLowerCase_kept (s : string) :
  Str.all_chars Str.kept s = true -> Str.toLowerCase s = s.
Proof.
  induction s as [|c s IH]; simpl; [reflexivity|].
  rewrite andb_true_iff. intros [Hc Hs]. now rewrite (lower_char_kept c Hc), IH.
Qed.

Lemma strip_all_kept (s : string) : Str.all_chars Str.kept (Str.strip s) = true.
Proof.
  induction s as [|c s IH]; simpl; [reflexivity|].
  destruct (Str.kept c) eqn:Hc; simpl; [now rewrite Hc | exact IH].
Qed.

Lemma strip_kept (s : string) : Str.all_chars Str.kept s = true -> Str.strip s = s.
Proof.
  induction s as [|c s IH]; simpl; [reflexivity|].
  rewrite andb_true_iff. intros [Hc Hs]. now rewrite Hc, IH.
Qed.

Lemma trimStart_all (p : ascii -> bool) (s : string) :
  Str.all_chars p s = true -> Str.all_chars p (Str.trimStart s) = true.
Proof.
  induction s as [|c s IH]; simpl; [reflexivity|].
  rewrite andb_true_iff. intros [Hc Hs].
  destruct (Str.is_space c); [now apply IH | simpl; now rewrite Hc, Hs].
Qed.

Lemma trimEnd_all (p : ascii -> bool) (s : string) :
  Str.all_chars p s = true -> Str.all_chars p (Str.trimEnd s) = true.
Proof.
  induction s as [|c s IH]; simpl; [reflexivity|].
  rewrite andb_true_iff. intros [Hc Hs]. specialize (IH Hs).
  destruct (Str.trimEnd s) as [|d r].
  - destruct (Str.is_space c); simpl; [reflexivity | now rewrite Hc].
  - change (Str.all_chars p (String c (String d r)) = true).
    cbn [Str.all_chars] in *. now rewrite Hc, IH.
Qed.

Lemma trimStart_head (s : string) : head_not_space (Str.trimStart s) = true.
Proof.
  induction s as [|c s IH]; simpl; [reflexivity|].
  destruct (Str.is_space c) eqn:Hc; [exact IH | simpl; now rewrite Hc].
Qed.

Lemma trimStart_fixed (s : string) : head_not_space s = true -> Str.trimStart s = s.
Proof.
  destruct s as [|c s]; simpl; [reflexivity|].
  now destruct (Str.is_space c).
Qed.

Lemma trimEnd_head (s : string) :
  head_not_space s = true -> head_not_space (Str.trimEnd s) = true.
Proof.
  destruct s as [|c s]; simpl; [reflexivity|]. intros Hc.
  destruct (Str.trimEnd s); [|exact Hc].
  destruct (Str.is_space c) eqn:Hsp; [reflexivity|]. simpl. now rewrite Hsp.
Qed.

Lemma trimEnd_idempotent (s : string) : Str.trimEnd (Str.trimEnd s) = Str.trimEnd s.
Proof.
  induction s as [|c s IH]; [reflexivity|].
  cbn [Str.trimEnd]. destruct (Str.trimEnd s) as [|d r] eqn:Hr.
  - destruct (Str.is_space c) eqn:Hc; [reflexivity|].
    cbn [Str.trimEnd]. now rewrite Hc.
  - cbn [Str.trimEnd] in *. now rewrite IH.
Qed.

Lemma trim_idempotent (s : string) : Str.trim (Str.trim s) = Str.trim s.
Proof.
  unfold Str.trim.
  rewrite (trimStart_fixed (Str.trimEnd (Str.trimStart s))).
  - apply trimEnd_idempotent.
  - apply trimEnd_head, trimStart_head.
Qed.

Lemma trim_all (p : ascii -> bool) (s : string) :
  Str.all_chars p s = true -> Str.all_chars p (Str.trim s) = true.
Proof. intros H. unfold Str.trim. now apply trimEnd_all, trimStart_all. Qed.

Lemma normalize_all_kept (text : string) :
  Str.all_chars Str.kept (normalize text) = true.
Proof. unfold normalize. apply trim_all, strip_all_kept. Qed.

(** X8. The normal form of a text holds only the characters [a-z], [0-9]
    and white space, and none of the three steps changes it any more: it is
    its own lower case, nothing is left to strip, nothing to trim.
    Normalizing is therefore idempotent, and it does not see the case of
    the text. *)
Theorem normalize_normal (text : string) :
  Str.all_chars Str.kept (normalize text) = true
  /\ Str.toLowerCase (normalize text) = normalize text
  /\ Str.strip (normalize text) = normalize text
  /\ Str.trim (normalize text) = normalize text
  /\ normalize (normalize text) = normalize text
  /\ normalize (Str.toLowerCase text) = normalize text.
Proof.
  pose proof (normalize_all_kept text) as Hk.
  assert (Hl : Str.toLowerCase (normalize text) = normalize text)
    by now apply toLowerCase_kept.
  assert (Hs : Str.strip (normalize text) = normalize text) by now apply strip_kept.
  assert (Ht : Str.trim (normalize text) = normalize text)
    by (unfold normalize; apply trim_idempotent).
  repeat split; try assumption.
  - unfold normalize at 1. now rewrite Hl, Hs, Ht.
  - unfold normalize. now rewrite toLowerCase_idempotent.
Qed.


(** ** The destination check and normal forms *)

Lemma append_empty_r (s : string) : s +:+ EmptyString = s.
Proof. induction s as [|c s IH]; [reflexivity|]. now rewrite append_cons, IH. Qed.

Lemma includes_refl (s : string) : Str.includes s s = true.
Proof.
  apply includes_spec. exists EmptyString, EmptyString.
  now rewrite append_nil, append_empty_r.
Qed.

Lemma validateDestination_normal_eq
    (s : JSValue) (d d' : string) (events : list Event) :
  normalize d = normalize d' ->
  validateDestination s d events = validateDestination s d' events.
Proof. intros Heq. unfold validateDestination. cbv zeta. now rewrite Heq. Qed.

(** X9. The destination check reads the destination through its normal
    form alone: the destination can be replaced by its normal form, by its
    lower case, or by any text with the same normal form, and the answer
    stays.  A suggestion whose location, not empty, has the normal form of
    the destination is accepted, and so is one whose location has the
    normal form, not empty, of the location of an event. *)
Theorem validateDestination_normal_forms
    (suggestion : JSValue) (destination : string) (events : list Event) :
  validateDestination suggestion (normalize destination) events =
    validateDestination suggestion destination events
  /\ validateDestination suggestion (Str.toLowerCase destination) events =
     validateDestination suggestion destination events
  /\ (forall other, normalize other = normalize destination ->
        validateDestination suggestion other events =
        validateDestination suggestion destination events)
  /\ (forall loc, get suggestion "location" = Normal (JStr loc) ->
        loc <> EmptyString -> normalize loc = normalize destination ->
        validateDestination suggestion destination events = Normal true)
  /\ (forall loc e, get suggestion "location" = Normal (JStr loc) ->
        loc <> EmptyString -> In e events ->
        normalize (location e) <> EmptyString ->
        normalize loc = normalize (location e) ->
        validateDestination suggestion destination events = Normal true).
Proof.
  split; [|split; [|split; [|split]]].
  - apply validateDestination_normal_eq.
    unfold normalize at 1.
    rewrite (toLowerCase_kept _ (normalize_all_kept destination)).
    rewrite (strip_kept _ (normalize_all_kept destination)).
    unfold normalize. apply trim_idempotent.
  - apply validateDestination_normal_eq. unfold normalize.
    now rewrite toLowerCase_idempotent.
  - intros other Heq. now apply validateDestination_normal_eq.
  - intros loc Hget Hloc Heq. apply validateDestination_true.
    exists loc. split; [exact Hget|]. split; [exact Hloc|]. left.
    rewrite Heq. apply includes_spec, includes_refl.
  - intros loc e Hget Hloc Hin Hne Heq. apply validateDestination_true.
    exists loc. split; [exact Hget|]. split; [exact Hloc|]. right.
    exists e. split; [exact Hin|]. split; [exact Hne|].
    rewrite Heq. apply includes_spec, includes_refl.
Qed.

(** ** What the validation returns on any list *)

Lemma Array_some_false {A} (f : A -> Completion bool) (l : list A) :
  Array_some f l = Normal false -> forall x, In x l -> f x = Normal false.
Proof.
  induction l as [|y l IH]; intros Hrun x Hin; [destruct Hin|].
  simpl in Hrun. destruct (f y) as [[]|] eqn:Hy; simpl in Hrun; try discriminate Hrun.
  destruct Hin as [<- | Hin]; [exact Hy | now apply IH].
Qed.

Section AnyList.
Context `{rt : Runtime}.
Variables (events : list Event) (destination : string) (budget : Z).

Lemma validate_loop_sublist (suggestions acc result : list JSValue) :
  validate_loop suggestions events destination budget acc = Normal result ->
  exists kept, result = acc ++ kept /\ sublist kept suggestions.
Proof.
  revert acc. induction suggestions as [|s l IH]; intros acc; simpl.
  - intros [= <-]. exists []. split; [now rewrite app_nil_r | constructor].
  - destruct (collect_issues s events destination budget) as [issues|];
      simpl; [|discriminate].
    destruct (get s "name") as [n|]; simpl;
      [|now destruct (0 <? length issues)%nat].
    destruct (template_text n) as [shown|]; simpl;
      [|now destruct (0 <? length issues)%nat].
    destruct (0 <? length issues)%nat; intros Hrun.
    + destruct (IH acc Hrun) as [kept [-> Hsub]].
      exists kept. split; [reflexivity | now constructor].
    + destruct (IH (acc ++ [s]) Hrun) as [kept [-> Hsub]].
      exists (s :: kept). split; [now rewrite <- app_assoc | now constructor].
Qed.

Lemma validateAllSuggestions_checked (suggestions result : list JSValue) :
  validateAllSuggestions suggestions events destination budget = Normal result ->
  sublist result suggestions /\
  Forall (passed_checks events destination budget) result.
Proof.
  intros Hrun. unfold validateAllSuggestions in Hrun. split.
  - destruct (validate_loop_sublist _ _ _ Hrun) as [kept [-> Hsub]]. exact Hsub.
  - refine (validate_loop_accepts _ _ _ _ _ _ _ _ Hrun _); [|constructor].
    intros s Hd Hb Hn. now repeat split.
Qed.

Lemma validateBudget_true (s : JSValue) :
  validateBudget s budget = Normal true ->
  (forall c, get s "cost" = Normal (JNum c) -> c <= budget) /\
  (forall v, get s "cost" = Normal v -> truthy v = false -> 0 <= budget).
Proof.
  unfold validateBudget. intros Hrun. split.
  - intros c Hc. rewrite Hc in Hrun. simpl in Hrun. unfold js_or in Hrun.
    simpl in Hrun. destruct (c =? 0) eqn:Hz; simpl in Hrun;
      injection Hrun as Hle; apply Z.leb_le in Hle; [|exact Hle].
    apply Z.eqb_eq in Hz. lia.
  - intros v Hv Hfalsy. rewrite Hv in Hrun. simpl in Hrun. unfold js_or in Hrun.
    rewrite Hfalsy in Hrun. simpl in Hrun. injection Hrun as Hle. now apply Z.leb_le.
Qed.

Lemma isDuplicate_false (s : JSValue) :
  isDuplicate events s = Normal false -> events <> [] ->
  exists n, get s "name" = Normal (JStr n) /\
            forall e, In e events ->
                      Str.toLowerCase (name e) <> Str.toLowerCase n.
Proof.
  intros Hrun Hne. unfold isDuplicate in Hrun.
  pose proof (Array_some_false _ _ Hrun) as Hall.
  destruct events as [|e0 rest]; [now destruct Hne|].
  pose proof (Hall e0 (or_introl eq_refl)) as H0. cbv zeta in H0.
  destruct (get s "name") as [v|] eqn:Hv; [|discriminate H0]. simpl in H0.
  destruct v as [| | | |n| |]; try discriminate H0.
  exists n. split; [reflexivity|]. intros e Hin.
  specialize (Hall e Hin). cbv zeta in Hall. simpl in Hall.
  injection Hall as Heqb. now apply String.eqb_neq.
Qed.

End AnyList.

(** X10. On every list of parsed values, typed or not, what
    [validateAllSuggestions] returns is a subsequence of the list, in the
    order of the list, and every value in it has passed the three checks
    without throwing.  What [requestSuggestionFromLLM] returns for a reply
    whose span parses to an array is such a subsequence of that array. *)
Theorem returned_candidates_checked `{rt : Runtime} :
  (forall suggestions events' destination' budget' result,
     validateAllSuggestions suggestions events' destination' budget' = Normal result ->
     sublist result suggestions /\
     Forall (passed_checks events' destination' budget') result)
  /\ (forall (itinerary : Itinerary) text span elems,
        jsonMatch text = Some span ->
        JSON_parse span = Normal (JArr elems) ->
        exists result,
          requestSuggestionFromLLM itinerary (Resolved text) = Normal result /\
          sublist result elems /\
          Forall (passed_checks (events itinerary) (destination (trip itinerary))
                                (getRemainingBudget itinerary)) result).
Proof.
  split.
  - intros suggestions events' destination' budget' result.
    apply validateAllSuggestions_checked.
  - intros itinerary text span elems Hm Hp.
    unfold requestSuggestionFromLLM, request_attempt. cbv zeta. simpl.
    rewrite Hm. simpl. rewrite Hp. simpl.
    destruct (validateAllSuggestions elems (events itinerary)
                (destination (trip itinerary)) (getRemainingBudget itinerary))
      as [validated|e] eqn:Hv; simpl.
    + exists validated. split; [reflexivity|].
      now apply validateAllSuggestions_checked.
    + exists []. split; [reflexivity|]. split; [apply sublist_nil_l | constructor].
Qed.

(** X11. On every list of parsed values, a returned value whose cost is a
    number costs at most the budget; one whose cost is missing, null, 0 or
    otherwise falsy is returned only when the budget is not negative; and
    when the itinerary has an event, a returned value has a name that is a
    string and differs, up to case, from the name of every event. *)
Theorem returned_within_budget_and_new `{rt : Runtime}
    (suggestions : list JSValue) (events' : list Event)
    (destination' : string) (budget' : Z) (result : list JSValue) :
  validateAllSuggestions suggestions events' destination' budget' = Normal result ->
  Forall (fun s =>
            (forall c, get s "cost" = Normal (JNum c) -> c <= budget') /\
            (forall v, get s "cost" = Normal v -> truthy v = false -> 0 <= budget') /\
            (events' <> [] ->
             exists n, get s "name" = Normal (JStr n) /\
                       forall e, In e events' ->
                                 Str.toLowerCase (name e) <> Str.toLowerCase n))
         result.
Proof.
  intros Hrun.
  destruct (validateAllSuggestions_checked _ _ _ _ _ Hrun) as [_ Hall].
  eapply Forall_impl; [exact Hall|].
  intros s (_ & Hb & Hn). cbv beta.
  destruct (validateBudget_true budget' s Hb) as [Hnum Hfalsy].
  split; [exact Hnum|]. split; [exact Hfalsy|].
  intros Hne. now apply (isDuplicate_false events').
Qed.

Lemma returned_within_budget_and_new_witness :
  validateAllSuggestions (rt := runtime_parsing JNull)
    five_candidates [colosseum] "Rome, Italy" 50
  = Normal [suggestion_object "Trevi Fountain" 50 "Sightseeing" "Rome, Italy" 1;
            JObj [("name", JStr "Pantheon"); ("location", JStr "Rome, Italy")]]
  /\ Forall (fun s => forall c, get s "cost" = Normal (JNum c) -> c <= 50)
            [suggestion_object "Trevi Fountain" 50 "Sightseeing" "Rome, Italy" 1;
             JObj [("name", JStr "Pantheon"); ("location", JStr "Rome, Italy")]].
Proof.
  split; [reflexivity|].
  eapply Forall_impl.
  - exact (@returned_within_budget_and_new (runtime_parsing JNull) five_candidates
             [colosseum] "Rome, Italy" 50 _ eq_refl).
  - intros s (Hnum & _). exact Hnum.
Defined.


(** ** Lists with a value the checks cannot read *)

Section Unreadable.
Context `{rt : Runtime}.
Variables (events : list Event) (destination : string) (budget : Z).

Lemma collect_issues_unreadable (s : JSValue) :
  unreadable events s ->
  exists e, collect_issues s events destination budget = Throw e.
Proof.
  unfold collect_issues.
  intros [-> | [(v & Hv & Ht & Hstr) | (Hne & v & Hv & Hstr)]].
  - now eexists.
  - unfold validateDestination. rewrite Hv. cbn [bind]. rewrite Ht. cbn [negb].
    unfold js_or. rewrite Ht.
    destruct v as [| | | |l| |]; try (now eexists). now destruct (Hstr l).
  - destruct (validateDestination s destination events) as [okDest|];
      [|now eexists]. cbn [bind].
    destruct (validateBudget s budget) as [okBudget|]; [|now eexists]. cbn [bind].
    unfold isDuplicate. destruct events as [|e0 rest]; [now destruct Hne|].
    cbn [Array_some]. rewrite Hv. cbn [bind].
    destruct v as [| | | |n| |]; try (now eexists). now destruct (Hstr n).
Qed.

Lemma validate_loop_throws (suggestions acc : list JSValue) (s : JSValue) :
  In s suggestions ->
  (exists e, collect_issues s events destination budget = Throw e) ->
  exists e, validate_loop suggestions events destination budget acc = Throw e.
Proof.
  intros Hin Hthrow. revert acc.
  induction suggestions as [|x l IH]; intros acc; [destruct Hin|].
  cbn [validate_loop].
  destruct (collect_issues x events destination budget) as [issues|e] eqn:Hx;
    [|now exists e].
  destruct Hin as [-> | Hin].
  { destruct Hthrow as [e He]. rewrite He in Hx. discriminate Hx. }
  cbn [bind]. destruct (get x "name") as [n|e];
    [|destruct (0 <? length issues)%nat; now exists e].
  cbn [bind]. destruct (template_text n) as [shown|e];
    [|destruct (0 <? length issues)%nat; now exists e].
  cbn [bind]. destruct (0 <? length issues)%nat; now apply IH.
Qed.

End Unreadable.

(** X12. One value that the checks cannot read spoils the list: when the
    list holds [null], or a value whose location is truthy and not a
    string, or, the itinerary having an event, a value whose name is
    missing or not a string, [validateAllSuggestions] throws whatever else
    the list holds, and [requestSuggestionFromLLM] returns the empty
    list. *)
Theorem unreadable_value_spoils_list `{rt : Runtime}
    (suggestions : list JSValue) (itinerary : Itinerary) (s : JSValue) :
  In s suggestions -> unreadable (events itinerary) s ->
  (exists e,
     validateAllSuggestions suggestions (events itinerary)
       (destination (trip itinerary)) (getRemainingBudget itinerary) = Throw e)
  /\ (forall text span,
        jsonMatch text = Some span ->
        JSON_parse span = Normal (JArr suggestions) ->
        requestSuggestionFromLLM itinerary (Resolved text) = Normal []).
Proof.
  intros Hin Hbad.
  assert (Hthrow : exists e,
            validateAllSuggestions suggestions (events itinerary)
              (destination (trip itinerary)) (getRemainingBudget itinerary) = Throw e).
  { unfold validateAllSuggestions.
    apply (validate_loop_throws _ _ _ _ _ s Hin).
    now apply collect_issues_unreadable. }
  split; [exact Hthrow|].
  intros text span Hm Hp. destruct Hthrow as [e He].
  unfold requestSuggestionFromLLM, request_attempt. cbv zeta. simpl.
  rewrite Hm. simpl. rewrite Hp. simpl. now rewrite He.
Qed.

Lemma unreadable_value_spoils_list_witness :
  In JNull [trevi; JNull]
  /\ unreadable (events rome) JNull
  /\ requestSuggestionFromLLM (rt := runtime_parsing (JArr [trevi; JNull]))
       rome (Resolved "[ the reply ]") = Normal [].
Proof.
  assert (Hin : In JNull [trevi; JNull]) by (right; left; reflexivity).
  assert (Hbad : unreadable (events rome) JNull) by (left; reflexivity).
  split; [exact Hin|]. split; [exact Hbad|].
  exact (proj2 (@unreadable_value_spoils_list (runtime_parsing (JArr [trevi; JNull]))
                  [trevi; JNull] rome JNull Hin Hbad)
               "[ the reply ]" "[ the reply ]" eq_refl eq_refl).
Defined.

(** ** An itinerary without events *)

Section NoEvents.
Context `{rt : Runtime}.
Variables (destination : string) (budget : Z).

Lemma collect_issues_without_name (s : JSValue) :
  readable_without_name s = true ->
  exists issues n shown,
    collect_issues s [] destination budget = Normal issues /\
    (0 <? length issues)%nat =
      negb (location_matches (location_of s) destination []
            && (cost_of s <=? budget)) /\
    get s "name" = Normal n /\ template_text n = Normal shown.
Proof.
  destruct s as [| | | | | |props]; try discriminate. cbn [readable_without_name].
  intros Hs.
  assert (Hd : validateDestination (JObj props) destination [] =
               Normal (location_matches (location_of (JObj props)) destination [])).
  { cbn [location_of].
    destruct (lookup_prop props "location") as [| | | |loc| |] eqn:E.
    - now apply (validateDestination_missing _ _ _ JUndefined); simpl; rewrite ?E.
    - now apply (validateDestination_missing _ _ _ JNull); simpl; rewrite ?E.
    - destruct (lookup_prop props "name"); discriminate Hs.
    - destruct (lookup_prop props "name"); discriminate Hs.
    - apply validateDestination_string. simpl. now rewrite E.
    - destruct (lookup_prop props "name"); discriminate Hs.
    - destruct (lookup_prop props "name"); discriminate Hs. }
  assert (Hb : validateBudget (JObj props) budget =
               Normal (cost_of (JObj props) <=? budget)).
  { unfold validateBudget. cbn [get cost_of bind].
    destruct (lookup_prop props "cost") as [| | |c| | |] eqn:E; try reflexivity.
    - destruct (lookup_prop props "name"), (lookup_prop props "location");
        discriminate Hs.
    - unfold js_or. simpl. now destruct (Z.eqb_spec c 0) as [->|].
    - destruct (lookup_prop props "name"), (lookup_prop props "location");
        discriminate Hs.
    - destruct (lookup_prop props "name"), (lookup_prop props "location");
        discriminate Hs.
    - destruct (lookup_prop props "name"), (lookup_prop props "location");
        discriminate Hs. }
  unfold collect_issues. rewrite Hd, Hb. cbn [bind isDuplicate Array_some].
  assert (Hn : exists shown,
             template_text (lookup_prop props "name") = Normal shown).
  { destruct (lookup_prop props "name"); try discriminate Hs; now eexists. }
  destruct Hn as [shown Hn].
  eexists _, (lookup_prop props "name"), shown.
  split; [reflexivity|]. split; [|split; [reflexivity | exact Hn]].
  destruct (location_matches _ _ _), (cost_of (JObj props) <=? budget); reflexivity.
Qed.

Lemma validate_loop_without_names (suggestions acc : list JSValue) :
  Forall (fun s => readable_without_name s = true) suggestions ->
  validate_loop suggestions [] destination budget acc =
  Normal (acc ++ List.filter
                   (fun s => location_matches (location_of s) destination []
                             && (cost_of s <=? budget))
                   suggestions).
Proof.
  intros Hall. revert acc.
  induction Hall as [|s l Hs Hl IH]; intros acc; cbn [validate_loop List.filter].
  - now rewrite app_nil_r.
  - destruct (collect_issues_without_name s Hs)
      as (issues & n & shown & -> & Hlen & -> & Hshown).
    cbn [bind]. rewrite Hlen, Hshown. cbn [bind].
    destruct (location_matches _ _ _ && (cost_of s <=? budget)); cbn [negb].
    + rewrite IH. now rewrite <- app_assoc.
    + apply IH.
Qed.

End NoEvents.

(** X13. For an itinerary without events the duplicate check reads no
    name: a list of objects whose location and cost are of their types or
    missing is filtered by the destination and the budget check alone, and
    an object without a name, or with a name that is a number, is returned
    like any other. *)
Theorem no_events_no_name_read `{rt : Runtime}
    (suggestions : list JSValue) (destination' : string) (budget' : Z) :
  Forall (fun s => readable_without_name s = true) suggestions ->
  validateAllSuggestions suggestions [] destination' budget' =
  Normal (List.filter
            (fun s => location_matches (location_of s) destination' []
                      && (cost_of s <=? budget'))
            suggestions).
Proof.
  intros Hall. unfold validateAllSuggestions.
  now rewrite (validate_loop_without_names destination' budget' suggestions []).
Qed.

Lemma no_events_no_name_read_witness :
  Forall (fun s => readable_without_name s = true) [nameless; louvre]
  /\ validateAllSuggestions (rt := runtime_parsing JNull)
       [nameless; louvre] [] "Rome, Italy" 2500 = Normal [nameless].
Proof.
  assert (Hall : Forall (fun s => readable_without_name s = true) [nameless; louvre])
    by (repeat constructor).
  split; [exact Hall|].
  exact (@no_events_no_name_read (runtime_parsing JNull) [nameless; louvre]
           "Rome, Italy" 2500 Hall).
Defined.

(** ** More budget, more suggestions *)

Lemma filter_sublist_impl {A} (p q : A -> bool) (l : list A) :
  (forall x, p x = true -> q x = true) ->
  sublist (List.filter p l) (List.filter q l).
Proof.
  intros Hpq. induction l as [|x l IH]; simpl; [constructor|].
  destruct (p x) eqn:Hp.
  - rewrite (Hpq x Hp). now constructor.
  - destruct (q x); [now constructor | exact IH].
Qed.

(** X14. On candidates that fit [interface Suggestion], a larger budget
    loses no suggestion: what [validateAllSuggestions] returns for a budget
    is a subsequence of what it returns for any budget that is not
    smaller. *)
Theorem validateAllSuggestions_monotone `{rt : Runtime}
    (suggestions : list JSValue) (events' : list Event) (destination' : string)
    (budget' larger : Z) :
  Forall (fun s => is_Suggestion s = true) suggestions ->
  budget' <= larger ->
  exists result result',
    validateAllSuggestions suggestions events' destination' budget' = Normal result /\
    validateAllSuggestions suggestions events' destination' larger = Normal result' /\
    sublist result result'.
Proof.
  intros Hall Hle. unfold validateAllSuggestions.
  rewrite !(validate_loop_suggestions events' destination' _ suggestions [] Hall).
  eexists _, _. split; [reflexivity|]. split; [reflexivity|].
  apply filter_sublist_impl. intros s. unfold passes_all_checks.
  rewrite !andb_true_iff, !Z.leb_le. intros [[Hd Hb] Hn]. repeat split; auto. lia.
Qed.

Lemma validateAllSuggestions_monotone_witness :
  Forall (fun s => is_Suggestion s = true) five_candidates
  /\ 50 <= 75
  /\ exists result result',
       validateAllSuggestions (rt := runtime_parsing JNull)
         five_candidates [colosseum] "Rome, Italy" 50 = Normal result /\
       validateAllSuggestions (rt := runtime_parsing JNull)
         five_candidates [colosseum] "Rome, Italy" 75 = Normal result' /\
       sublist result result'.
Proof.
  assert (Hall : Forall (fun s => is_Suggestion s = true) five_candidates)
    by (repeat constructor).
  assert (Hle : 50 <= 75) by lia.
  split; [exact Hall|]. split; [exact Hle|].
  exact (@validateAllSuggestions_monotone (runtime_parsing JNull) five_candidates
           [colosseum] "Rome, Italy" 50 75 Hall Hle).
Defined.


(** ** No cap and no comparison inside the list *)

Lemma filter_all {A} (p : A -> bool) (l : list A) :
  Forall (fun x => p x = true) l -> List.filter p l = l.
Proof. induction 1 as [|x l Hx _ IH]; simpl; [reflexivity | now rewrite Hx, IH]. Qed.

(** X15. [validateAllSuggestions] puts no limit on the number of
    suggestions and compares no candidate with another: a list of
    candidates that each pass the three checks is returned whole, however
    long it is and whatever it repeats. *)
Theorem validateAllSuggestions_no_cap `{rt : Runtime}
    (suggestions : list JSValue) (events' : list Event) (destination' : string)
    (budget' : Z) :
  Forall (fun s => is_Suggestion s = true) suggestions ->
  Forall (fun s => passes_all_checks s events' destination' budget' = true)
         suggestions ->
  validateAllSuggestions suggestions events' destination' budget' = Normal suggestions.
Proof.
  intros Hall Hpass. unfold validateAllSuggestions.
  rewrite (validate_loop_suggestions events' destination' budget' suggestions [] Hall).
  cbn [app]. f_equal.
  now apply (filter_all (fun s => passes_all_checks s events' destination' budget')).
Qed.

Lemma validateAllSuggestions_no_cap_witness :
  length (replicate 6 trevi) = 6%nat
  /\ validateAllSuggestions (rt := runtime_parsing JNull)
       (replicate 6 trevi) [colosseum] "Rome, Italy" 2350
     = Normal (replicate 6 trevi).
Proof.
  split; [reflexivity|].
  apply (@validateAllSuggestions_no_cap (runtime_parsing JNull) (replicate 6 trevi)
           [colosseum] "Rome, Italy" 2350); cbn [replicate]; repeat constructor.
Defined.

(** ** Failures that the requester absorbs *)

(** X16. For every itinerary, [requestSuggestionFromLLM] returns the empty
    list when the gateway promise is rejected with an error object, or with
    any value other than [undefined] and [null]; when the promise resolves
    with a value that is not a string; when the reply has no bracketed
    span; when [JSON.parse] rejects the span; when the parsed value is not
    an array; and when the validation throws.  When the span parses to an
    array and the validation returns, it returns what the validation
    returns.  On every outcome that is not a rejection with [undefined] or
    [null] it returns a list. *)
Theorem requestSuggestionFromLLM_fails_soft `{rt : Runtime} (itinerary : Itinerary) :
  (forall e, requestSuggestionFromLLM itinerary (Rejected (ErrorObject e)) = Normal [])
  /\ (forall v, v <> JUndefined -> v <> JNull ->
        requestSuggestionFromLLM itinerary (Rejected (Value v)) = Normal [])
  /\ (forall v, (forall text, v <> JStr text) ->
        requestSuggestionFromLLM itinerary (ResolvedWith v) = Normal [])
  /\ (forall text,
        requestSuggestionFromLLM itinerary (ResolvedWith (JStr text)) =
        requestSuggestionFromLLM itinerary (Resolved text))
  /\ (forall text,
        jsonMatch text = None ->
        requestSuggestionFromLLM itinerary (Resolved text) = Normal [])
  /\ (forall text span e,
        jsonMatch text = Some span -> JSON_parse span = Throw e ->
        requestSuggestionFromLLM itinerary (Resolved text) = Normal [])
  /\ (forall text span v,
        jsonMatch text = Some span -> JSON_parse span = Normal v ->
        (forall elems, v <> JArr elems) ->
        requestSuggestionFromLLM itinerary (Resolved text) = Normal [])
  /\ (forall text span elems e,
        jsonMatch text = Some span -> JSON_parse span = Normal (JArr elems) ->
        validateAllSuggestions elems (events itinerary) (destination (trip itinerary))
                               (getRemainingBudget itinerary) = Throw e ->
        requestSuggestionFromLLM itinerary (Resolved text) = Normal [])
  /\ (forall text span elems validated,
        jsonMatch text = Some span -> JSON_parse span = Normal (JArr elems) ->
        validateAllSuggestions elems (events itinerary) (destination (trip itinerary))
                               (getRemainingBudget itinerary) = Normal validated ->
        requestSuggestionFromLLM itinerary (Resolved text) = Normal validated)
  /\ (forall llm,
        ~ nullish_rejection llm ->
        exists result, requestSuggestionFromLLM itinerary llm = Normal result).
Proof.
  split; [reflexivity|].
  split; [intros v Hu Hn; rewrite requestSuggestionFromLLM_rejected; now destruct v|].
  split.
  { intros v Hv. rewrite requestSuggestionFromLLM_resolved_with.
    destruct v; try reflexivity. now destruct (Hv s). }
  split; [reflexivity|].
  split; [intros text Hm; now rewrite requestSuggestionFromLLM_resolved, Hm|].
  split.
  { intros text span e Hm Hp. now rewrite requestSuggestionFromLLM_resolved, Hm, Hp. }
  split.
  { intros text span v Hm Hp Hv. rewrite requestSuggestionFromLLM_resolved, Hm, Hp.
    destruct v; try reflexivity. now destruct (Hv elems). }
  split.
  { intros text span elems e Hm Hp Hv.
    now rewrite requestSuggestionFromLLM_resolved, Hm, Hp, Hv. }
  split.
  { intros text span elems validated Hm Hp Hv.
    now rewrite requestSuggestionFromLLM_resolved, Hm, Hp, Hv. }
  intros llm Hnot. destruct (requestSuggestionFromLLM_cases itinerary llm)
    as [H | [[Hnull _] | [elems [validated [_ H]]]]]; [eauto | contradiction | eauto].
Qed.
